(** * Shallow embedding of the libsession-util state / config merge core

    Sources:
    - src/src/config/internal.hpp   (copy_c_str, c_wrapper_init_generic,
                                     c_wrapper_init, c_group_wrapper_init,
                                     set_pair_if, set_flag, load_unknowns,
                                     append_unknown, zstd_decompress)
    - src/include/session/state.h   (state_merge, state_dump,
                                     state_dump_namespace, profile accessors)

    Only [copy_c_str], [c_wrapper_init_generic], [c_wrapper_init],
    [c_group_wrapper_init] and [set_pair_if] have bodies in the sources; the merge engine, the dump and
    load paths, the profile accessors and the decompressor are declared
    there and modelled below from the specification (each such definition
    says so in its doc comment). *)

From Stdlib Require Import ZArith Lia.
From stdpp Require Import base gmap sets list strings sorting.

Open Scope Z_scope.
#[local] Set Warnings "-register-all".


(* ------------------------------------------------------------------ *)
(** ** Byte strings and [size_t] arithmetic *)

(** Bytes of a [std::string_view] / [ustring]. *)
Abbreviation bytes := (list Byte.byte).

(** [size_t] is a 64-bit unsigned integer: subtraction wraps around. *)
Definition SIZE_MAX_1 : Z := 2 ^ 64.
Definition size_sub (a b : Z) : Z := (a - b) mod SIZE_MAX_1.

Definition len (s : bytes) : Z := Z.of_nat (length s).

(** [std::string_view::remove_suffix(n)]: precondition [n <= size()];
    violating it is undefined behaviour, modelled as [None]. *)
Definition remove_suffix (s : bytes) (n : Z) : option bytes :=
  if n <=? len s then Some (take (Z.to_nat (len s - n)) s) else None.

(** The stores performed by [std::memcpy(dest, src.data(), src.size())]
    followed by [dest[src.size()] = 0]: a list of (index, byte) writes. *)
Fixpoint memcpy_writes (i : Z) (s : bytes) : list (Z * Byte.byte) :=
  match s with
  | [] => []
  | b :: s' => (i, b) :: memcpy_writes (i + 1) s'
  end.

(** [template <size_t N> void copy_c_str(char (&dest)[N], std::string_view src)]
<<
    if (src.size() >= N)
        src.remove_suffix(src.size() - N - 1);
    std::memcpy(dest, src.data(), src.size());
    dest[src.size()] = 0;
>>
    Returns the writes made to [dest], or [None] when [remove_suffix] is
    called outside its precondition. *)
Definition copy_c_str (N : Z) (src : bytes) : option (list (Z * Byte.byte)) :=
  let src' :=
    if N <=? len src
    then remove_suffix src (size_sub (size_sub (len src) N) 1)
    else Some src in
  match src' with
  | None => None
  | Some s => Some (memcpy_writes 0 s ++ [(len s, Byte.x00)])
  end.

(** Every write lands inside [char dest[N]]. *)
Definition writes_in_bounds (N : Z) (w : list (Z * Byte.byte)) : Prop :=
  Forall (fun iw => 0 <= fst iw < N) w.

(** The error-message path of [c_wrapper_init_generic]:
<<
    std::string msg = e.what();
    if (msg.size() > 255)
        msg.resize(255);
    std::memcpy(error, msg.c_str(), msg.size() + 1);
>>
    [msg.c_str()] carries the terminating NUL, so [size() + 1] bytes are
    written. *)
Definition init_error_writes (what : bytes) : list (Z * Byte.byte) :=
  let msg := if 255 <? len what then take 255 what else what in
  memcpy_writes 0 (msg ++ [Byte.x00]).

(* ------------------------------------------------------------------ *)
(** ** Config values and documents *)

(** Values of a config dict: strings (also binary), integers, nested
    dicts and lists, as in [session::config::dict]. *)
Inductive Value : Type :=
  | VStr (s : string)
  | VInt (z : Z)
  | VDict (d : list (string * Value))
  | VList (l : list Value).

(** A top-level config dict, keyed by field name. *)
Abbreviation dict := (gmap string Value).

(** [ConfigBase::DictFieldProxy] for a top-level key: [f = v] stores the
    value, [f.erase()] removes the key. *)
Definition proxy_assign (f : string) (v : Value) (d : dict) : dict := <[f := v]> d.
Definition proxy_erase (f : string) (d : dict) : dict := delete f d.

(** [set_pair_if(condition, f1, v1, f2, v2)]:
<<
    if (condition) { f1 = v1; f2 = v2; }
    else { f1.erase(); f2.erase(); }
>> *)
Definition set_pair_if (condition : bool) (f1 : string) (v1 : Value)
    (f2 : string) (v2 : Value) (d : dict) : dict :=
  if condition
  then proxy_assign f2 v2 (proxy_assign f1 v1 d)
  else proxy_erase f2 (proxy_erase f1 d).

(* ------------------------------------------------------------------ *)
(** ** Config messages and the merge priority *)

#[global] Instance byte_eq_dec : EqDecision Byte.byte := Byte.byte_eq_dec.

(** [state_config_message]: [namespace_], [hash], [timestamp_ms] and the
    payload [data]/[datalen]. *)
Record ConfigMessage := mkConfigMessage {
  namespace_ : Z;
  hash : string;
  timestamp_ms : Z;
  data : bytes
}.

#[global] Instance ConfigMessage_eq_dec : EqDecision ConfigMessage.
Proof.
  intros [n1 h1 t1 d1] [n2 h2 t2 d2].
  destruct (decide (n1 = n2)), (decide (h1 = h2)), (decide (t1 = t2)),
    (decide (d1 = d2)); subst;
    first [left; reflexivity | right; intros Heq; inversion Heq; contradiction].
Defined.

(** Modelled from the spec (merge priority of a field, state_merge):
    the priority of a message's fields is its [timestamp_ms], ties broken
    by comparing [hash] lexicographically. *)
Definition Prio : Type := Z * string.

Definition msg_prio (m : ConfigMessage) : Prio := (timestamp_ms m, hash m).

Definition prio_ltb (p q : Prio) : bool :=
  (p.1 <? q.1) || ((p.1 =? q.1) && String.ltb p.2 q.2).

(** A document field: its value and the priority it was written with. *)
Definition Entry : Type := Value * Prio.

(** Modelled from the spec (state_merge): a fragment field of priority
    [p] replaces the current field only when [p] is higher. *)
Definition fold_field (p : Prio) (v : Value) (cur : option Entry) : option Entry :=
  match cur with
  | Some (_, p0) => if prio_ltb p0 p then Some (v, p) else cur
  | None => Some (v, p)
  end.

(** [ConfigDocument]: recognised fields and the bucket of unknown fields,
    both keyed by field name. *)
Record ConfigDocument := mkConfigDocument {
  known_fields : gmap string Entry;
  unknown_fields : gmap string Entry
}.

(** [ConfigState] for one (namespace, account) pair. *)
Record ConfigState := mkConfigState {
  document : ConfigDocument;
  applied_hashes : gset string;
  needs_dump : bool
}.

Definition empty_document : ConfigDocument := mkConfigDocument ∅ ∅.
Definition fresh_state : ConfigState := mkConfigState empty_document ∅ false.

Section Engine.

(** The payload decoder of the binary codec (a fragment, or a decode
    failure) and the schema's set of recognised field names. *)
Variable decode : bytes -> option dict.
Variable is_known : string -> bool.

(** Modelled from the spec (state_merge): fold each field of a fragment
    into one bucket of the document. *)
Definition merge_into (p : Prio) (doc : gmap string Entry) (frag : dict)
    : gmap string Entry :=
  merge (fun cur nv => match nv with
                       | None => cur
                       | Some v => fold_field p v cur
                       end) doc frag.

(** Recognised fragment keys go to the known fields, the others to the
    unknown bucket, with the same tie-break. *)
Definition fold_fragment (p : Prio) (doc : ConfigDocument) (frag : dict)
    : ConfigDocument :=
  mkConfigDocument
    (merge_into p (known_fields doc) (filter (fun kv => is_known kv.1 = true) frag))
    (merge_into p (unknown_fields doc) (filter (fun kv => is_known kv.1 = false) frag)).

(** Modelled from the spec (state_merge, one message): skip an already
    applied hash; skip a payload that fails to decode; otherwise fold the
    fragment, record the hash, set [needs_dump] and report the hash as
    accepted. *)
Definition merge_one (sa : ConfigState * list string) (m : ConfigMessage)
    : ConfigState * list string :=
  let '(s, acc) := sa in
  if decide (hash m ∈ applied_hashes s) then (s, acc)
  else match decode (data m) with
       | None => (s, acc)
       | Some frag =>
           (mkConfigState (fold_fragment (msg_prio m) (document s) frag)
                          ({[hash m]} ∪ applied_hashes s) true,
            acc ++ [hash m])
       end.

(** Modelled from the spec: [ConfigState.merge(messages) -> accepted hashes]. *)
Definition config_merge (s : ConfigState) (msgs : list ConfigMessage)
    : ConfigState * list string :=
  foldl merge_one (s, []) msgs.

(** Several batches merged one after the other. *)
Definition merge_batches (s : ConfigState) (bs : list (list ConfigMessage))
    : ConfigState :=
  foldl (fun s b => (config_merge s b).1) s bs.

(** The state after merging one message, whatever was accepted before. *)
Definition merge_state (s : ConfigState) (m : ConfigMessage) : ConfigState :=
  (merge_one (s, []) m).1.

End Engine.

(** Hashes identify message contents: within a set of messages, two with
    the same [hash] are the same message. *)
Definition hash_consistent (l : list ConfigMessage) : Prop :=
  forall a b, a ∈ l -> b ∈ l -> hash a = hash b -> a = b.


(* ------------------------------------------------------------------ *)
(** ** Profile accessors *)

(** Modelled from the spec (state_get_profile_name): a typed view of the
    well-known profile-name field (key ["n"]) of the document; [None] when
    the field is absent or not a string. *)
Definition get_profile_name (doc : ConfigDocument) : option string :=
  match known_fields doc !! "n" with
  | Some (VStr name, _) => Some name
  | _ => None
  end.

(** A concrete payload decoder used to run the model on sample messages:
    the one-byte payload ["a"] decodes to the fragment [{n: "alice"}],
    ["b"] to [{n: "bob"}], anything else fails to decode. *)
Definition sample_decode (b : bytes) : option dict :=
  match b with
  | [Byte.x61] => Some {[ "n" := VStr "alice" ]}
  | [Byte.x62] => Some {[ "n" := VStr "bob" ]}
  | _ => None
  end.

(** The profile schema's recognised keys in the samples. *)
Definition sample_is_known (k : string) : bool :=
  bool_decide (k ∈ ["M"; "n"; "p"; "q"]).

(** The entry the document holds for field [k]: recognised fields live in
    [known_fields], the others in the unknown bucket. *)
Definition doc_lookup (is_known : string -> bool) (doc : ConfigDocument) (k : string)
    : option Entry :=
  if is_known k then known_fields doc !! k else unknown_fields doc !! k.

(* ------------------------------------------------------------------ *)
(** ** Dump and load of a document *)

(** Modelled from the spec (dump format, [append_unknown] /
    [load_unknowns]): each field is stored under its name as the list
    [[value, timestamp, hash]], so that its merge priority survives a
    dump; known and unknown fields go into one dict in key order. *)
Definition encode_entry (e : Entry) : Value :=
  VList [e.1; VInt e.2.1; VStr e.2.2].

Definition decode_entry (v : Value) : option Entry :=
  match v with
  | VList [x; VInt t; VStr h] => Some (x, (t, h))
  | _ => None
  end.

(** Canonical key order of the dict: lexicographic on key names. *)
Definition key_le (a b : string * Entry) : Prop := String.leb a.1 b.1 = true.

#[global] Instance key_le_dec : RelDecision key_le.
Proof. intros a b. unfold key_le. apply _. Defined.

Definition dump_document (doc : ConfigDocument) : Value :=
  VDict (map (fun ke => (ke.1, encode_entry ke.2))
             (merge_sort key_le (map_to_list (known_fields doc)
                                 ++ map_to_list (unknown_fields doc)))).

(** Modelled from the spec ([load_unknowns]): every key the schema does
    not recognise is kept verbatim in the unknown bucket; a malformed
    entry makes the whole load fail. *)
Definition load_document (is_known : string -> bool) (v : Value) : option ConfigDocument :=
  match v with
  | VDict kvs =>
      entries ← mapM (fun kv => e ← decode_entry kv.2; Some (kv.1, e)) kvs;
      Some (mkConfigDocument
              (list_to_map (filter (fun ke => is_known ke.1 = true) entries))
              (list_to_map (filter (fun ke => is_known ke.1 = false) entries)))
  | _ => None
  end.

(** A document as [load_document] builds it: recognised keys only in
    [known_fields], the others only in [unknown_fields]. *)
Definition wf_document (is_known : string -> bool) (doc : ConfigDocument) : Prop :=
  map_Forall (fun k _ => is_known k = true) (known_fields doc)
  /\ map_Forall (fun k _ => is_known k = false) (unknown_fields doc).

(** Modelled from the spec ([ConfigState.dump]): encode the document and
    clear [needs_dump]; [applied_hashes] is kept. *)
Definition config_dump (s : ConfigState) : Value * ConfigState :=
  (dump_document (document s), mkConfigState (document s) (applied_hashes s) false).

(** Modelled from the spec ([ConfigState.load]): replace the document on
    success; on failure report [false] and keep the state as it was. *)
Definition config_load (is_known : string -> bool) (s : ConfigState) (v : Value)
    : bool * ConfigState :=
  match load_document is_known v with
  | None => (false, s)
  | Some d => (true, mkConfigState d (applied_hashes s) (needs_dump s))
  end.

(* ------------------------------------------------------------------ *)
(** ** The state store: [state_dump] and [state_dump_namespace] *)

(** States indexed by (namespace, account). *)
Abbreviation StateStore := (gmap (Z * string) ConfigState).

(** Modelled from the spec ([state_dump(full_dump)]): the container holds
    the dumps of all states when [full], otherwise of the states that need
    a dump; every included state has [needs_dump] cleared. *)
Definition store_dump (full : bool) (st : StateStore)
    : gmap (Z * string) Value * StateStore :=
  ((fun s => (config_dump s).1) <$> filter (fun kv => (full || needs_dump kv.2) = true) st,
   (fun s => if full || needs_dump s then (config_dump s).2 else s) <$> st).

(** Modelled from the spec ([state_dump_namespace]): dump one state and
    clear its [needs_dump]. *)
Definition store_dump_namespace (ns : Z) (account : string) (st : StateStore)
    : option Value * StateStore :=
  match st !! (ns, account) with
  | None => (None, st)
  | Some s => (Some (config_dump s).1, <[(ns, account) := (config_dump s).2]> st)
  end.

(* ------------------------------------------------------------------ *)
(** ** Tri-state flag accessor *)

(** Modelled from the spec (state_get_profile_blinded_msgreqs): the flag
    lives under the profile key ["M"]; absent reads -1, a stored 0 reads
    0 and any other stored integer reads 1. *)
Definition get_profile_blinded_msgreqs (d : dict) : Z :=
  match d !! "M" with
  | Some (VInt z) => if z =? 0 then 0 else 1
  | _ => -1
  end.

(** Modelled from the spec (state_set_profile_blinded_msgreqs): a
    negative value clears the flag, 0 stores false, a positive value
    stores true. *)
Definition set_profile_blinded_msgreqs (enabled : Z) (d : dict) : dict :=
  if enabled <? 0 then delete "M" d
  else <[ "M" := VInt (if 0 <? enabled then 1 else 0) ]> d.

(* ------------------------------------------------------------------ *)
(** ** Decompression and loading a dump from bytes *)

Section Decompress.

(** The zstd frame decoder (the decompressed bytes, or a failure). *)
Variable zstd_frame_decode : bytes -> option bytes.

(** Modelled from the spec ([zstd_decompress(data, max_size)], declared in
    internal.hpp): [None] when decompression fails, or when [max_size] is
    non-zero and the decompressed size would exceed it. *)
Definition zstd_decompress (d : bytes) (max_size : Z) : option bytes :=
  match zstd_frame_decode d with
  | None => None
  | Some out => if (0 <? max_size) && (max_size <? len out) then None else Some out
  end.

(** The binary codec's decoder, the compression marker and the schema. *)
Variable bt_decode : bytes -> option Value.
Variable marker : bytes.
Variable is_known : string -> bool.

(** Modelled from the spec (load of a dump, Compressor): a dump that starts
    with the compression marker is decompressed with the size bound first;
    one without it is decoded as raw data.  Any failure leaves the state
    unchanged. *)
Definition config_load_bytes (max_size : Z) (s : ConfigState) (raw : bytes)
    : bool * ConfigState :=
  let payload :=
    if decide (marker `prefix_of` raw)
    then zstd_decompress (drop (length marker) raw) max_size
    else Some raw in
  match payload ≫= bt_decode with
  | None => (false, s)
  | Some v => config_load is_known s v
  end.

End Decompress.

(* ------------------------------------------------------------------ *)
(** ** Character buffers and the C wrapper constructors *)

(** A store [dest[i] = b] into a character buffer, modelled as the list of
    its bytes.  It is only applied to writes inside the buffer. *)
Definition store (buf : bytes) (iw : Z * Byte.byte) : bytes :=
  <[ Z.to_nat (fst iw) := snd iw ]> buf.

(** The buffer after a sequence of stores, in order. *)
Definition apply_writes (buf : bytes) (w : list (Z * Byte.byte)) : bytes :=
  foldl store buf w.

(** Reading a [const char*]: the bytes up to the first NUL. *)
Fixpoint c_str_of (buf : bytes) : bytes :=
  match buf with
  | [] => []
  | b :: r => if Byte.eqb b Byte.x00 then [] else b :: c_str_of r
  end.

(** The return codes used by [c_wrapper_init_generic] (named in
    [session/config/error.h]). *)
Inductive session_err : Type :=
  | SESSION_ERR_NONE
  | SESSION_ERR_INVALID_DUMP.

(** The C handle [config_object]: the [internals] pointer (to the wrapped
    C++ config object) and [last_error] ([None] for [nullptr]). *)
Record config_object (C : Type) := mk_config_object {
  internals : C;
  last_error : option bytes;
}.
Arguments mk_config_object {C} _ _.
Arguments internals {C} _.
Arguments last_error {C} _.

(** [template <typename ConfigT, typename... Args>
    int c_wrapper_init_generic(config_object** conf, char* error, Args&&... args)]
<<
    try { c->config = std::make_unique<ConfigT>(std::forward<Args>(args)...); }
    catch (const std::exception& e) {
        if (error) {
            std::string msg = e.what();
            if (msg.size() > 255) msg.resize(255);
            std::memcpy(error, msg.c_str(), msg.size() + 1);
        }
        return SESSION_ERR_INVALID_DUMP;
    }
    c_conf->internals = c.release();
    c_conf->last_error = nullptr;
    *conf = c_conf.release();
    return SESSION_ERR_NONE;
>>
    [ctor args] is the outcome of the [ConfigT] constructor: [inl what] when
    it throws (the bytes at [e.what()], read up to their NUL into [msg]),
    [inr c] when it returns [c].  [conf] is the value [*conf] holds and
    [error] the bytes of the [error] buffer ([None] for a null pointer).
    The result is the return code, [*conf] and the [error] buffer after the
    call. *)
Definition c_wrapper_init_generic {A C : Type} (ctor : A -> bytes + C) (args : A)
    (conf : option (config_object C)) (error : option bytes)
    : session_err * option (config_object C) * option bytes :=
  match ctor args with
  | inl what =>
      (SESSION_ERR_INVALID_DUMP, conf,
       (fun buf => apply_writes buf (init_error_writes (c_str_of what))) <$> error)
  | inr c => (SESSION_ERR_NONE, Some (mk_config_object c None), error)
  end.

(** [template <typename ConfigT> int c_wrapper_init(config_object** conf,
    const unsigned char* ed25519_secretkey_bytes, const unsigned char* dumpstr,
    size_t dumplen, char* error)]
<<
    assert(ed25519_secretkey_bytes);
    ustring_view ed25519_secretkey{ed25519_secretkey_bytes, 32};
    std::optional<ustring_view> dump;
    if (dumpstr && dumplen)
        dump.emplace(dumpstr, dumplen);
    return c_wrapper_init_generic<ConfigT>(conf, error, ed25519_secretkey, dump);
>>
    A pointer argument is [None] for [nullptr] and otherwise the bytes
    readable from it.  A failed [assert] gives [None]. *)
Definition c_wrapper_init {C : Type} (ctor : bytes * option bytes -> bytes + C)
    (conf : option (config_object C)) (ed25519_secretkey_bytes : option bytes)
    (dumpstr : option bytes) (dumplen : Z) (error : option bytes)
    : option (session_err * option (config_object C) * option bytes) :=
  match ed25519_secretkey_bytes with
  | None => None
  | Some sk =>
      let ed25519_secretkey := take 32 sk in
      let dump :=
        match dumpstr with
        | Some d => if negb (dumplen =? 0) then Some (take (Z.to_nat dumplen) d) else None
        | None => None
        end in
      Some (c_wrapper_init_generic ctor (ed25519_secretkey, dump) conf error)
  end.

(** [template <typename ConfigT> int c_group_wrapper_init(config_object** conf,
    const unsigned char* ed25519_pubkey_bytes,
    const unsigned char* ed25519_secretkey_bytes,
    const unsigned char* dump_bytes, size_t dumplen, char* error)]
<<
    assert(ed25519_pubkey_bytes);
    ustring_view ed25519_pubkey{ed25519_pubkey_bytes, 32};
    std::optional<ustring_view> ed25519_secretkey;
    if (ed25519_secretkey_bytes)
        ed25519_secretkey.emplace(ed25519_secretkey_bytes, 32);
    std::optional<ustring_view> dump;
    if (dump_bytes && dumplen)
        dump.emplace(dump_bytes, dumplen);
    return c_wrapper_init_generic<ConfigT>(conf, error, ed25519_pubkey, ed25519_secretkey, dump);
>> *)
Definition c_group_wrapper_init {C : Type}
    (ctor : bytes * option bytes * option bytes -> bytes + C)
    (conf : option (config_object C)) (ed25519_pubkey_bytes : option bytes)
    (ed25519_secretkey_bytes : option bytes) (dump_bytes : option bytes)
    (dumplen : Z) (error : option bytes)
    : option (session_err * option (config_object C) * option bytes) :=
  match ed25519_pubkey_bytes with
  | None => None
  | Some pk =>
      let ed25519_pubkey := take 32 pk in
      let ed25519_secretkey :=
        match ed25519_secretkey_bytes with
        | Some sk => Some (take 32 sk)
        | None => None
        end in
      let dump :=
        match dump_bytes with
        | Some d => if negb (dumplen =? 0) then Some (take (Z.to_nat dumplen) d) else None
        | None => None
        end in
      Some (c_wrapper_init_generic ctor (ed25519_pubkey, ed25519_secretkey, dump) conf error)
  end.

(* ================================================================== *)
(** * Theorems *)

(* ------------------------------------------------------------------ *)
(** ** Error strings across the C boundary *)

Lemma memcpy_writes_indices (i : Z) (s : bytes) :
  Forall (fun iw => i <= fst iw < i + len s) (memcpy_writes i s).
Proof.
  revert i; induction s as [|b s IH]; intros i; simpl; constructor.
  - unfold len; simpl; lia.
  - eapply Forall_impl; [apply IH|]. intros [j x]; unfold len; simpl; lia.
Qed.

(** The sibling path in [c_wrapper_init_generic] truncates to 255 bytes
    and writes at most 256 bytes into the 256-byte error buffer. *)
Lemma init_error_writes_in_bounds (what : bytes) :
  writes_in_bounds 256 (init_error_writes what).
Proof.
  unfold writes_in_bounds, init_error_writes.
  eapply Forall_impl; [apply memcpy_writes_indices|].
  intros [j x]; simpl. unfold len. rewrite length_app; simpl.
  case_match; [rewrite length_take|]; apply Z.ltb_lt in H || apply Z.ltb_ge in H;
    unfold len in H; lia.
Qed.

(** C9 (code_bug): [copy_c_str] into a 256-byte buffer with a 300-byte
    message keeps 300 - (300 - 256 - 1) = 257 bytes and writes the
    terminator at index 257: the writes leave [dest[0..255]]. *)
Lemma copy_c_str_overflows :
  exists w, copy_c_str 256 (repeat Byte.x61 300) = Some w
    /\ In (257, Byte.x00) w
    /\ In (256, Byte.x61) w
    /\ ~ writes_in_bounds 256 w.
Proof.
  eexists; split; [vm_compute; reflexivity|].
  assert (H257 : In (257, Byte.x00)
                   (memcpy_writes 0 (repeat Byte.x61 257) ++ [(257, Byte.x00)])).
  { apply in_or_app. right. left. reflexivity. }
  split; [exact H257|]. split; [vm_compute; tauto|].
  intros Hin. unfold writes_in_bounds in Hin. rewrite List.Forall_forall in Hin.
  specialize (Hin _ H257). simpl in Hin. lia.
Qed.

(** With a message of exactly [N] bytes, [src.size() - N - 1] wraps to
    [SIZE_MAX] and [remove_suffix] is called outside its precondition. *)
Lemma copy_c_str_size_N_undefined :
  copy_c_str 256 (repeat Byte.x61 256) = None.
Proof. vm_compute. reflexivity. Qed.

(* ------------------------------------------------------------------ *)
(** ** Paired fields *)

(** C10: after [set_pair_if] on two distinct fields, either both hold the
    supplied values (condition true) or both are absent (condition false);
    exactly one of them is never present. *)
Theorem set_pair_if_both_or_neither (condition : bool) (f1 f2 : string)
    (v1 v2 : Value) (d : dict) :
  f1 <> f2 ->
  let d' := set_pair_if condition f1 v1 f2 v2 d in
  (condition = true /\ d' !! f1 = Some v1 /\ d' !! f2 = Some v2)
  \/ (condition = false /\ d' !! f1 = None /\ d' !! f2 = None).
Proof.
  intros Hne d'. subst d'. unfold set_pair_if, proxy_assign, proxy_erase.
  destruct condition; [left | right]; split_and!; try reflexivity.
  - rewrite lookup_insert_ne by congruence. apply lookup_insert_eq.
  - apply lookup_insert_eq.
  - rewrite lookup_delete_ne by congruence. apply lookup_delete_eq.
  - apply lookup_delete_eq.
Qed.

Lemma set_pair_if_both_or_neither_witness :
  ("p" <> "q")%string /\
  ((true = true /\ set_pair_if true "p" (VStr "http://x") "q" (VStr "k") ∅ !! "p" = Some (VStr "http://x")
      /\ set_pair_if true "p" (VStr "http://x") "q" (VStr "k") ∅ !! "q" = Some (VStr "k"))
   \/ (true = false /\ set_pair_if true "p" (VStr "http://x") "q" (VStr "k") ∅ !! "p" = None
      /\ set_pair_if true "p" (VStr "http://x") "q" (VStr "k") ∅ !! "q" = None)).
Proof.
  split; [discriminate|].
  exact (set_pair_if_both_or_neither true "p" "q" (VStr "http://x") (VStr "k") ∅
           ltac:(discriminate)).
Defined.

(* ------------------------------------------------------------------ *)
(** ** The merge priority is a strict total order *)

Lemma string_compare_lt_trans (s1 s2 s3 : string) :
  String.compare s1 s2 = Lt -> String.compare s2 s3 = Lt ->
  String.compare s1 s3 = Lt.
Proof.
  revert s2 s3.
  induction s1 as [|a s1 IH]; intros [|b s2] [|c s3]; simpl;
    try discriminate; try reflexivity.
  destruct (Ascii.compare a b) eqn:Hab; try discriminate;
  destruct (Ascii.compare b c) eqn:Hbc; try discriminate; intros H1 H2.
  - apply Ascii.compare_eq_iff in Hab, Hbc; subst.
    unfold Ascii.compare; rewrite N.compare_refl. eapply IH; eauto.
  - apply Ascii.compare_eq_iff in Hab; subst. rewrite Hbc. reflexivity.
  - apply Ascii.compare_eq_iff in Hbc; subst. rewrite Hab. reflexivity.
  - unfold Ascii.compare in *. rewrite N.compare_lt_iff in *.
    replace (N.compare _ _) with Lt; [reflexivity|].
    symmetry; apply N.compare_lt_iff; lia.
Qed.

Lemma string_ltb_irrefl (s : string) : String.ltb s s = false.
Proof.
  unfold String.ltb. induction s as [|a s IH]; simpl; [reflexivity|].
  unfold Ascii.compare; rewrite N.compare_refl. exact IH.
Qed.

Lemma string_ltb_trans (s1 s2 s3 : string) :
  String.ltb s1 s2 = true -> String.ltb s2 s3 = true -> String.ltb s1 s3 = true.
Proof.
  unfold String.ltb.
  destruct (String.compare s1 s2) eqn:H12; try discriminate;
  destruct (String.compare s2 s3) eqn:H23; try discriminate.
  rewrite (string_compare_lt_trans _ _ _ H12 H23). reflexivity.
Qed.

Lemma string_ltb_total (s1 s2 : string) :
  s1 <> s2 -> String.ltb s1 s2 = true \/ String.ltb s2 s1 = true.
Proof.
  intros Hne. unfold String.ltb. rewrite (String.compare_antisym s2 s1).
  destruct (String.compare s1 s2) eqn:H; simpl; auto.
  apply String.compare_eq_iff in H. contradiction.
Qed.

Lemma prio_ltb_irrefl (p : Prio) : prio_ltb p p = false.
Proof.
  destruct p as [t h]. unfold prio_ltb; simpl.
  rewrite Z.ltb_irrefl, Z.eqb_refl, string_ltb_irrefl. reflexivity.
Qed.

Lemma prio_ltb_trans (p q r : Prio) :
  prio_ltb p q = true -> prio_ltb q r = true -> prio_ltb p r = true.
Proof.
  destruct p as [tp hp], q as [tq hq], r as [tr hr]. unfold prio_ltb; simpl.
  rewrite !orb_true_iff, !andb_true_iff, !Z.ltb_lt, !Z.eqb_eq.
  intros [H1|[H1 H1']] [H2|[H2 H2']]; subst; try lia.
  right; split; [reflexivity|]. eapply string_ltb_trans; eauto.
Qed.

Lemma prio_ltb_asym (p q : Prio) :
  prio_ltb p q = true -> prio_ltb q p = false.
Proof.
  intros H. destruct (prio_ltb q p) eqn:H'; [|reflexivity].
  pose proof (prio_ltb_trans _ _ _ H H') as Hpp.
  rewrite prio_ltb_irrefl in Hpp. discriminate.
Qed.

Lemma prio_ltb_total (p q : Prio) :
  p <> q -> prio_ltb p q = true \/ prio_ltb q p = true.
Proof.
  destruct p as [tp hp], q as [tq hq]. unfold prio_ltb; simpl. intros Hne.
  rewrite !orb_true_iff, !andb_true_iff, !Z.ltb_lt, !Z.eqb_eq.
  destruct (Z.lt_trichotomy tp tq) as [Hlt|[Heq|Hgt]]; [auto| |auto].
  subst. destruct (string_ltb_total hp hq) as [H|H]; [congruence|auto|auto].
Qed.

(** Distinct hashes give distinct priorities. *)
Lemma msg_prio_neq (a b : ConfigMessage) : hash a <> hash b -> msg_prio a <> msg_prio b.
Proof. unfold msg_prio. intros Hne Heq. inversion Heq. contradiction. Qed.

(* ------------------------------------------------------------------ *)
(** ** Field-level merge lemmas *)

Lemma fold_field_comm (p q : Prio) (v w : Value) (e : option Entry) :
  p <> q ->
  fold_field q w (fold_field p v e) = fold_field p v (fold_field q w e).
Proof.
  intros Hne. destruct (prio_ltb_total p q Hne) as [Hpq|Hqp].
  - pose proof (prio_ltb_asym _ _ Hpq) as Hqp.
    destruct e as [[v0 p0]|]; simpl; [|rewrite Hpq, Hqp; reflexivity].
    destruct (prio_ltb p0 p) eqn:H1, (prio_ltb p0 q) eqn:H2; simpl;
      rewrite ?Hpq, ?Hqp, ?H1, ?H2; try reflexivity.
    rewrite (prio_ltb_trans _ _ _ H1 Hpq) in H2. discriminate.
  - pose proof (prio_ltb_asym _ _ Hqp) as Hpq.
    destruct e as [[v0 p0]|]; simpl; [|rewrite Hpq, Hqp; reflexivity].
    destruct (prio_ltb p0 p) eqn:H1, (prio_ltb p0 q) eqn:H2; simpl;
      rewrite ?Hpq, ?Hqp, ?H1, ?H2; try reflexivity.
    rewrite (prio_ltb_trans _ _ _ H2 Hqp) in H1. discriminate.
Qed.

Lemma lookup_merge_into (p : Prio) (doc : gmap string Entry) (frag : dict) (k : string) :
  merge_into p doc frag !! k =
  match frag !! k with
  | None => doc !! k
  | Some v => fold_field p v (doc !! k)
  end.
Proof.
  unfold merge_into. rewrite lookup_merge.
  destruct (doc !! k), (frag !! k); reflexivity.
Qed.

Lemma merge_into_comm (p q : Prio) (doc : gmap string Entry) (f g : dict) :
  p <> q ->
  merge_into q (merge_into p doc f) g = merge_into p (merge_into q doc g) f.
Proof.
  intros Hne. apply map_eq. intros k. rewrite !lookup_merge_into.
  destruct (f !! k), (g !! k); try reflexivity. by apply fold_field_comm.
Qed.

Section EngineLemmas.

Variable decode : bytes -> option dict.
Variable is_known : string -> bool.

#[local] Abbreviation step := (merge_state decode is_known).

Lemma merge_one_fst (s : ConfigState) (acc : list string) (m : ConfigMessage) :
  (merge_one decode is_known (s, acc) m).1 = step s m.
Proof.
  unfold merge_state, merge_one.
  case_decide; [reflexivity|]. destruct (decode (data m)); reflexivity.
Qed.

Lemma foldl_merge_one_fst (s : ConfigState) (acc : list string) (l : list ConfigMessage) :
  (foldl (merge_one decode is_known) (s, acc) l).1 = foldl (step) s l.
Proof.
  revert s acc. induction l as [|m l IH]; intros s acc; cbn [foldl]; [reflexivity|].
  destruct (merge_one decode is_known (s, acc) m) as [s' acc'] eqn:E.
  rewrite IH. f_equal. rewrite <- (merge_one_fst s acc m), E. reflexivity.
Qed.

Lemma config_merge_fst (s : ConfigState) (l : list ConfigMessage) :
  (config_merge decode is_known s l).1 = foldl (step) s l.
Proof. apply foldl_merge_one_fst. Qed.

Lemma fold_fragment_comm (p q : Prio) (doc : ConfigDocument) (f g : dict) :
  p <> q ->
  fold_fragment is_known q (fold_fragment is_known p doc f) g
  = fold_fragment is_known p (fold_fragment is_known q doc g) f.
Proof.
  intros Hne. unfold fold_fragment; simpl. f_equal; by apply merge_into_comm.
Qed.

Lemma merge_state_comm (s : ConfigState) (a b : ConfigMessage) :
  (hash a = hash b -> a = b) ->
  step (step s a) b = step (step s b) a.
Proof.
  intros Hab. destruct (decide (hash a = hash b)) as [Heq|Hne].
  { rewrite (Hab Heq). reflexivity. }
  unfold merge_state, merge_one.
  destruct (decide (hash a ∈ applied_hashes s)) as [Ha|Ha];
  destruct (decide (hash b ∈ applied_hashes s)) as [Hb|Hb];
  destruct (decode (data a)) as [fa|] eqn:Da;
  destruct (decode (data b)) as [fb|] eqn:Db; simpl;
  repeat first
    [ rewrite decide_True by set_solver
    | rewrite decide_False by set_solver
    | rewrite Da | rewrite Db ]; simpl; try reflexivity.
  f_equal; [by apply fold_fragment_comm, msg_prio_neq | set_solver].
Qed.

Lemma merge_state_idem (s : ConfigState) (m : ConfigMessage) :
  step (step s m) m = step s m.
Proof.
  unfold merge_state, merge_one.
  destruct (decide (hash m ∈ applied_hashes s)) as [H|H]; simpl.
  - rewrite decide_True by exact H. reflexivity.
  - destruct (decode (data m)) eqn:D; simpl.
    + rewrite decide_True by set_solver. reflexivity.
    + rewrite decide_False by exact H. reflexivity.
Qed.

Lemma hash_consistent_perm (l1 l2 : list ConfigMessage) :
  l1 ≡ₚ l2 -> hash_consistent l1 -> hash_consistent l2.
Proof.
  intros Hp Hc a b Ha Hb. apply Hc; by rewrite Hp.
Qed.

Lemma hash_consistent_cons (x : ConfigMessage) (l : list ConfigMessage) :
  hash_consistent (x :: l) -> hash_consistent l.
Proof. intros Hc a b Ha Hb. apply Hc; set_solver. Qed.

(** Folding a hash-consistent batch does not depend on its order. *)
Lemma foldl_step_perm (l1 l2 : list ConfigMessage) (s : ConfigState) :
  hash_consistent l1 -> l1 ≡ₚ l2 -> foldl step s l1 = foldl step s l2.
Proof.
  intros Hc Hp. revert s Hc.
  induction Hp as [|x l1 l2 Hp IH|x y l|l1 l2 l3 Hp12 IH12 Hp23 IH23];
    intros s Hc; cbn [foldl].
  - reflexivity.
  - apply IH. eapply hash_consistent_cons; eauto.
  - rewrite merge_state_comm; [reflexivity|]. apply Hc; set_solver.
  - rewrite IH12 by exact Hc. apply IH23. eapply hash_consistent_perm; eauto.
Qed.

(** A message already in the rest of the batch can be dropped up front. *)
Lemma foldl_step_absorb (x : ConfigMessage) (l : list ConfigMessage) (s : ConfigState) :
  hash_consistent (x :: l) -> x ∈ l -> foldl step (step s x) l = foldl step s l.
Proof.
  intros Hc Hx. apply elem_of_Permutation in Hx as [k Hk].
  assert (Hcl : hash_consistent l) by (eapply hash_consistent_cons; eauto).
  rewrite !(foldl_step_perm l (x :: k)) by assumption. cbn [foldl].
  by rewrite merge_state_idem.
Qed.

Lemma foldl_step_remove_dups (l : list ConfigMessage) (s : ConfigState) :
  hash_consistent l -> foldl step s l = foldl step s (remove_dups l).
Proof.
  revert s. induction l as [|x l IH]; intros s Hc; [reflexivity|].
  cbn [remove_dups foldl]. case_decide as Hx.
  - rewrite foldl_step_absorb by assumption. apply IH.
    eapply hash_consistent_cons; eauto.
  - cbn [foldl]. apply IH. eapply hash_consistent_cons; eauto.
Qed.

(** Two batches with the same messages give the same state. *)
Lemma foldl_step_same_elements (l1 l2 : list ConfigMessage) (s : ConfigState) :
  hash_consistent l1 -> (forall m, m ∈ l1 <-> m ∈ l2) ->
  foldl step s l1 = foldl step s l2.
Proof.
  intros Hc Hel.
  assert (Hc2 : hash_consistent l2).
  { intros a b Ha Hb. apply Hc; by apply Hel. }
  rewrite (foldl_step_remove_dups l1 s Hc), (foldl_step_remove_dups l2 s Hc2).
  apply foldl_step_perm.
  - intros a b Ha Hb Hh. rewrite elem_of_remove_dups in Ha, Hb.
    exact (Hc a b Ha Hb Hh).
  - apply NoDup_Permutation; try apply NoDup_remove_dups.
    intros m. rewrite !elem_of_remove_dups. apply Hel.
Qed.

Lemma merge_batches_concat (s : ConfigState) (bs : list (list ConfigMessage)) :
  merge_batches decode is_known s bs = foldl step s (concat bs).
Proof.
  revert s. induction bs as [|b bs IH]; intros s; [reflexivity|].
  cbn [merge_batches foldl concat]. unfold merge_batches in IH |- *. cbn [foldl].
  rewrite IH, config_merge_fst, foldl_app. reflexivity.
Qed.

End EngineLemmas.

Section EngineInvariants.

Variable decode : bytes -> option dict.
Variable is_known : string -> bool.

(** What one batch adds: accepted hashes are new, pairwise distinct,
    recorded in [applied_hashes], and come from the batch. *)
Lemma foldl_merge_one_accepted (l : list ConfigMessage) (s : ConfigState)
    (acc : list string) :
  let r := foldl (merge_one decode is_known) (s, acc) l in
  NoDup acc -> (forall h, h ∈ acc -> h ∈ applied_hashes s) ->
  exists new, r.2 = acc ++ new
    /\ NoDup r.2
    /\ (forall h, h ∈ new -> (h ∉ applied_hashes s) /\ (exists m, m ∈ l /\ hash m = h))
    /\ applied_hashes s ⊆ applied_hashes r.1
    /\ (forall h, h ∈ applied_hashes r.1 ->
          h ∈ applied_hashes s \/ exists m, m ∈ l /\ hash m = h)
    /\ (forall h, h ∈ r.2 -> h ∈ applied_hashes r.1).
Proof.
  revert s acc. induction l as [|m l IH]; intros s acc r Hnd Hin; subst r.
  - exists []. cbn [foldl]. rewrite app_nil_r. split_and!.
    + reflexivity.
    + exact Hnd.
    + intros h Hh. set_solver.
    + done.
    + intros h Hh. by left.
    + exact Hin.
  - cbn [foldl].
    destruct (decide (hash m ∈ applied_hashes s)) as [Hm|Hm].
    { assert (E0 : merge_one decode is_known (s, acc) m = (s, acc))
        by (unfold merge_one; by rewrite decide_True).
      rewrite E0.
      destruct (IH s acc Hnd Hin) as (new & E & Hnd' & Hnew & Hsub & Happ & Hacc).
      exists new. split_and!; [exact E | exact Hnd' | | exact Hsub | | exact Hacc].
      - intros h Hh. destruct (Hnew h Hh) as [? (m' & ? & ?)]. split; [done|].
        exists m'. split; [set_solver|done].
      - intros h Hh. destruct (Happ h Hh) as [?|(m' & ? & ?)]; [by left|].
        right. exists m'. split; [set_solver|done]. }
    destruct (decode (data m)) as [frag|] eqn:D.
    + set (s1 := mkConfigState (fold_fragment is_known (msg_prio m) (document s) frag)
                   ({[hash m]} ∪ applied_hashes s) true).
      assert (E0 : merge_one decode is_known (s, acc) m = (s1, acc ++ [hash m]))
        by (unfold merge_one; rewrite decide_False by done; rewrite D; reflexivity).
      rewrite E0.
      assert (Hnd1 : NoDup (acc ++ [hash m])).
      { apply NoDup_app. split_and!; [done| |apply NoDup_singleton].
        intros h Hh Hh'. apply list_elem_of_singleton in Hh'. subst.
        apply Hm, Hin, Hh. }
      assert (Hin1 : forall h, h ∈ acc ++ [hash m] -> h ∈ applied_hashes s1).
      { intros h Hh. simpl. apply elem_of_app in Hh as [Hh|Hh].
        - apply Hin in Hh. set_solver.
        - apply list_elem_of_singleton in Hh. set_solver. }
      destruct (IH s1 (acc ++ [hash m]) Hnd1 Hin1)
        as (new & E & Hnd' & Hnew & Hsub & Happ & Hacc).
      exists (hash m :: new). split_and!; [| exact Hnd' | | | | exact Hacc].
      * rewrite E, <- app_assoc. reflexivity.
      * intros h Hh. apply elem_of_cons in Hh as [->|Hh].
        -- split; [done|]. exists m. split; [set_solver|done].
        -- destruct (Hnew h Hh) as [Hn (m' & ? & ?)]. split; [set_solver|].
           exists m'. split; [set_solver|done].
      * etrans; [|exact Hsub]. simpl. set_solver.
      * intros h Hh. destruct (Happ h Hh) as [Hh'|(m' & ? & ?)].
        -- simpl in Hh'. apply elem_of_union in Hh' as [Hh'|Hh']; [|by left].
           right. exists m. split; [set_solver|set_solver].
        -- right. exists m'. split; [set_solver|done].
    + assert (E0 : merge_one decode is_known (s, acc) m = (s, acc))
        by (unfold merge_one; rewrite decide_False by done; rewrite D; reflexivity).
      rewrite E0.
      destruct (IH s acc Hnd Hin) as (new & E & Hnd' & Hnew & Hsub & Happ & Hacc).
      exists new. split_and!; [exact E | exact Hnd' | | exact Hsub | | exact Hacc].
      * intros h Hh. destruct (Hnew h Hh) as [? (m' & ? & ?)]. split; [done|].
        exists m'. split; [set_solver|done].
      * intros h Hh. destruct (Happ h Hh) as [?|(m' & ? & ?)]; [by left|].
        right. exists m'. split; [set_solver|done].
Qed.

End EngineInvariants.

Lemma lookup_filter_bucket (is_known : string -> bool) (b : bool) (frag : dict) (k : string) :
  filter (fun kv => is_known kv.1 = b) frag !! k =
  if decide (is_known k = b) then frag !! k else None.
Proof.
  rewrite map_lookup_filter. destruct (frag !! k) as [x|]; simpl.
  - case_decide; simpl; [rewrite option_guard_True by done | rewrite option_guard_False by done];
      reflexivity.
  - case_decide; reflexivity.
Qed.

Lemma doc_lookup_fold_fragment (is_known : string -> bool) (p : Prio)
    (doc : ConfigDocument) (frag : dict) (k : string) :
  doc_lookup is_known (fold_fragment is_known p doc frag) k =
  match frag !! k with
  | None => doc_lookup is_known doc k
  | Some v => fold_field p v (doc_lookup is_known doc k)
  end.
Proof.
  unfold doc_lookup, fold_fragment; simpl.
  rewrite !lookup_merge_into, !lookup_filter_bucket.
  destruct (is_known k) eqn:Hk.
  - rewrite decide_True by done. reflexivity.
  - rewrite decide_True by done. reflexivity.
Qed.

Lemma merge_one_undecodable (decode : bytes -> option dict) (is_known : string -> bool)
    (sa : ConfigState * list string) (m : ConfigMessage) :
  decode (data m) = None -> merge_one decode is_known sa m = sa.
Proof.
  intros D. destruct sa as [s acc]. unfold merge_one.
  case_decide; [reflexivity|]. rewrite D. reflexivity.
Qed.

Lemma config_merge_applied_skip (decode : bytes -> option dict) (is_known : string -> bool)
    (s : ConfigState) (m : ConfigMessage) :
  hash m ∈ applied_hashes s -> config_merge decode is_known s [m] = (s, []).
Proof.
  intros H. unfold config_merge. cbn [foldl]. unfold merge_one.
  rewrite decide_True by exact H. reflexivity.
Qed.

Lemma config_merge_single_accepted (decode : bytes -> option dict)
    (is_known : string -> bool) (s : ConfigState) (m : ConfigMessage) (frag : dict) :
  hash m ∉ applied_hashes s -> decode (data m) = Some frag ->
  config_merge decode is_known s [m]
  = (mkConfigState (fold_fragment is_known (msg_prio m) (document s) frag)
                   ({[hash m]} ∪ applied_hashes s) true, [hash m]).
Proof.
  intros Hm D. unfold config_merge. cbn [foldl]. unfold merge_one.
  rewrite decide_False by exact Hm. rewrite D. reflexivity.
Qed.

(* ------------------------------------------------------------------ *)
(** ** Claims on [state_merge] *)

(** C1: merging the batch [A, B] (then the empty batch) and merging
    [B, A] from the same state give the same document; more generally two
    replicas starting from the same state that observe the same set of
    messages, in any order and batching, end with the same document.
    Hashes identify message contents ([hash_consistent]). *)
Theorem merge_order_independent (decode : bytes -> option dict)
    (is_known : string -> bool) (s : ConfigState) (A B : ConfigMessage)
    (bs1 bs2 : list (list ConfigMessage)) :
  (hash A = hash B -> A = B) ->
  hash_consistent (concat bs1) ->
  (forall m, m ∈ concat bs1 <-> m ∈ concat bs2) ->
  document (merge_batches decode is_known s [[A; B]; []])
    = document (merge_batches decode is_known s [[B; A]])
  /\ document (merge_batches decode is_known s bs1)
    = document (merge_batches decode is_known s bs2).
Proof.
  intros HAB Hc Hel. rewrite !merge_batches_concat. split.
  - cbn [concat foldl app]. by rewrite merge_state_comm.
  - f_equal. by apply foldl_step_same_elements.
Qed.

Lemma merge_order_independent_witness :
  let A := mkConfigMessage 2 "h1" 100 [Byte.x61] in
  let B := mkConfigMessage 2 "h2" 50 [Byte.x62] in
  document (merge_batches sample_decode sample_is_known fresh_state [[A; B]; []])
    = document (merge_batches sample_decode sample_is_known fresh_state [[B; A]])
  /\ document (merge_batches sample_decode sample_is_known fresh_state [[A]; [B]])
    = document (merge_batches sample_decode sample_is_known fresh_state [[B; A; B]]).
Proof.
  intros A B.
  apply (merge_order_independent sample_decode sample_is_known fresh_state A B
           [[A]; [B]] [[B; A; B]]).
  - intros H. discriminate H.
  - intros a b Ha Hb Hh. cbn [concat app] in Ha, Hb.
    rewrite !elem_of_cons, elem_of_nil in Ha, Hb.
    destruct Ha as [->|[->|[]]], Hb as [->|[->|[]]]; try reflexivity; discriminate Hh.
  - intros m. cbn [concat app]. rewrite !elem_of_cons, !elem_of_nil. tauto.
Defined.

(** C2: merging a message whose hash is already applied changes nothing
    and accepts nothing; merging a message a second time accepts nothing
    and leaves the state as the first merge left it; within a batch the
    accepted hashes are pairwise distinct, were not applied before, and
    are applied afterwards (so no hash is ever accepted twice). *)
Theorem merge_hash_applied_once (decode : bytes -> option dict)
    (is_known : string -> bool) :
  (forall (s : ConfigState) (m : ConfigMessage),
     hash m ∈ applied_hashes s -> config_merge decode is_known s [m] = (s, []))
  /\ (forall (s : ConfigState) (m : ConfigMessage),
     let s1 := (config_merge decode is_known s [m]).1 in
     config_merge decode is_known s1 [m] = (s1, []))
  /\ (forall (s : ConfigState) (l : list ConfigMessage),
     let r := config_merge decode is_known s l in
     NoDup r.2
     /\ (forall h, h ∈ r.2 -> (h ∉ applied_hashes s) /\ h ∈ applied_hashes r.1)).
Proof.
  split_and!.
  - apply config_merge_applied_skip.
  - intros s m s1. subst s1. unfold config_merge. cbn [foldl]. unfold merge_one at 2 3.
    destruct (decide (hash m ∈ applied_hashes s)) as [H|H]; simpl.
    + rewrite decide_True by exact H. reflexivity.
    + destruct (decode (data m)) eqn:D; simpl.
      * rewrite decide_True by set_solver. reflexivity.
      * rewrite decide_False by exact H. reflexivity.
  - intros s l r. subst r. unfold config_merge.
    destruct (foldl_merge_one_accepted decode is_known l s [] (NoDup_nil_2)
                ltac:(intros h Hh; apply elem_of_nil in Hh; contradiction))
      as (new & E & Hnd & Hnew & _ & _ & Hacc).
    split; [exact Hnd|]. intros h Hh. split; [|by apply Hacc].
    rewrite E in Hh. simpl in Hh. by apply Hnew.
Qed.

Lemma merge_hash_applied_once_witness :
  let m := mkConfigMessage 2 "h1" 100 [Byte.x61] in
  let s1 := (config_merge sample_decode sample_is_known fresh_state [m]).1 in
  hash m ∈ applied_hashes s1
  /\ config_merge sample_decode sample_is_known s1 [m] = (s1, []).
Proof.
  intros m s1.
  assert (Hin : hash m ∈ applied_hashes s1) by (vm_compute; set_solver).
  split; [exact Hin|].
  exact (proj1 (merge_hash_applied_once sample_decode sample_is_known) s1 m Hin).
Defined.

(** C3: a newly applied message sets each field of its fragment exactly
    when its priority (timestamp, then hash) is higher than the field's
    current one, and otherwise the field keeps its value; in particular,
    with any codec that decodes [d1] to [{n: "alice"}] and [d2] to
    [{n: "bob"}], merging [{h1, ts 100, d1}] and then [{h2, ts 50, d2}]
    leaves the profile name ["alice"]. *)
Theorem merge_keeps_higher_priority :
  (forall (decode : bytes -> option dict) (is_known : string -> bool)
          (s : ConfigState) (m : ConfigMessage) (frag : dict) (k : string) (v : Value),
     hash m ∉ applied_hashes s -> decode (data m) = Some frag -> frag !! k = Some v ->
     let old := doc_lookup is_known (document s) k in
     let new := doc_lookup is_known (document (config_merge decode is_known s [m]).1) k in
     (old = None -> new = Some (v, msg_prio m))
     /\ (forall e, old = Some e -> prio_ltb e.2 (msg_prio m) = true ->
           new = Some (v, msg_prio m))
     /\ (forall e, old = Some e -> prio_ltb e.2 (msg_prio m) = false -> new = Some e))
  /\ (forall (decode : bytes -> option dict) (is_known : string -> bool) (d1 d2 : bytes),
     decode d1 = Some {[ "n" := VStr "alice" ]} ->
     decode d2 = Some {[ "n" := VStr "bob" ]} ->
     is_known "n" = true ->
     get_profile_name
       (document (merge_batches decode is_known fresh_state
                    [[mkConfigMessage 2 "h1" 100 d1]; [mkConfigMessage 2 "h2" 50 d2]]))
     = Some "alice").
Proof.
  split.
  - intros decode is_known s m frag k v Hm D Hk old new. subst old new.
    unfold config_merge. cbn [foldl]. unfold merge_one.
    rewrite decide_False by exact Hm. rewrite D. simpl.
    rewrite doc_lookup_fold_fragment, Hk.
    split_and!.
    + intros ->. reflexivity.
    + intros [v0 p0] -> Hlt. simpl in *. rewrite Hlt. reflexivity.
    + intros [v0 p0] -> Hge. simpl in *. rewrite Hge. reflexivity.
  - intros decode is_known d1 d2 D1 D2 Hn.
    unfold merge_batches. cbn [foldl].
    rewrite (config_merge_single_accepted decode is_known fresh_state
               (mkConfigMessage 2 "h1" 100 d1) _ ltac:(simpl; set_solver) D1).
    cbn [fst].
    rewrite config_merge_single_accepted with (m := mkConfigMessage 2 "h2" 50 d2)
      (frag := {[ "n" := VStr "bob" ]}); [| simpl; set_solver | exact D2].
    unfold get_profile_name; cbn [fst document fold_fragment known_fields].
    rewrite !lookup_merge_into, !lookup_filter_bucket, Hn.
    rewrite decide_True by reflexivity. rewrite lookup_singleton_eq.
    unfold fresh_state, empty_document. cbn [document known_fields].
    rewrite lookup_empty. simpl. reflexivity.
Qed.

Lemma merge_keeps_higher_priority_witness :
  get_profile_name
    (document (merge_batches sample_decode sample_is_known fresh_state
                 [[mkConfigMessage 2 "h1" 100 [Byte.x61]];
                  [mkConfigMessage 2 "h2" 50 [Byte.x62]]]))
  = Some "alice"
  /\ doc_lookup sample_is_known
       (document (config_merge sample_decode sample_is_known fresh_state
                    [mkConfigMessage 2 "h1" 100 [Byte.x61]]).1) "n"
     = Some (VStr "alice", (100, "h1")).
Proof.
  split.
  - apply (proj2 merge_keeps_higher_priority); reflexivity.
  - exact (proj1 (proj1 merge_keeps_higher_priority sample_decode sample_is_known
             fresh_state (mkConfigMessage 2 "h1" 100 [Byte.x61])
             {[ "n" := VStr "alice" ]} "n" (VStr "alice")
             ltac:(set_solver) eq_refl eq_refl) eq_refl).
Defined.

(* ------------------------------------------------------------------ *)

Lemma config_merge_applied_from (decode : bytes -> option dict) (is_known : string -> bool)
    (s : ConfigState) (l : list ConfigMessage) (h : string) :
  h ∈ applied_hashes (config_merge decode is_known s l).1 ->
  h ∈ applied_hashes s \/ exists m, m ∈ l /\ hash m = h.
Proof.
  unfold config_merge.
  destruct (foldl_merge_one_accepted decode is_known l s [] (NoDup_nil_2)
              ltac:(intros h' Hh; apply elem_of_nil in Hh; contradiction))
    as (new & E & _ & Hnew & _ & Happ & _).
  apply Happ.
Qed.

Lemma config_merge_accepted_from (decode : bytes -> option dict) (is_known : string -> bool)
    (s : ConfigState) (l : list ConfigMessage) (h : string) :
  h ∈ (config_merge decode is_known s l).2 -> exists m, m ∈ l /\ hash m = h.
Proof.
  unfold config_merge.
  destruct (foldl_merge_one_accepted decode is_known l s [] (NoDup_nil_2)
              ltac:(intros h' Hh; apply elem_of_nil in Hh; contradiction))
    as (new & E & _ & Hnew & _ & _ & _).
  rewrite E. simpl. intros Hh. by apply Hnew.
Qed.

(** C8: a message whose payload fails to decode is skipped: the batch
    gives exactly the state and accepted hashes of the batch without it
    (the rest of the batch is still merged, and [config_merge] has no
    error result); when no other message of the batch carries its hash,
    that hash is neither recorded in [applied_hashes] nor accepted. *)
Theorem merge_skips_undecodable (decode : bytes -> option dict)
    (is_known : string -> bool) (s : ConfigState)
    (l1 l2 : list ConfigMessage) (m : ConfigMessage) :
  decode (data m) = None ->
  config_merge decode is_known s (l1 ++ m :: l2) = config_merge decode is_known s (l1 ++ l2)
  /\ (hash m ∉ applied_hashes s ->
      (forall m', m' ∈ l1 ++ l2 -> hash m' <> hash m) ->
      (hash m ∉ applied_hashes (config_merge decode is_known s (l1 ++ m :: l2)).1)
      /\ hash m ∉ (config_merge decode is_known s (l1 ++ m :: l2)).2).
Proof.
  intros D.
  assert (Heq : config_merge decode is_known s (l1 ++ m :: l2)
                = config_merge decode is_known s (l1 ++ l2)).
  { unfold config_merge. rewrite !foldl_app. cbn [foldl].
    by rewrite merge_one_undecodable. }
  split; [exact Heq|]. intros Hm Hothers. rewrite Heq. split.
  - intros Hin. apply config_merge_applied_from in Hin as [Hin|(m' & Hm' & Hh)].
    + contradiction.
    + exact (Hothers m' Hm' Hh).
  - intros Hin. apply config_merge_accepted_from in Hin as (m' & Hm' & Hh).
    exact (Hothers m' Hm' Hh).
Qed.

Lemma merge_skips_undecodable_witness :
  let bad := mkConfigMessage 2 "h9" 70 [Byte.x7a] in
  let good := mkConfigMessage 2 "h1" 100 [Byte.x61] in
  config_merge sample_decode sample_is_known fresh_state ([] ++ bad :: [good])
    = config_merge sample_decode sample_is_known fresh_state ([] ++ [good])
  /\ "h9"%string ∉ applied_hashes
       (config_merge sample_decode sample_is_known fresh_state ([] ++ bad :: [good])).1.
Proof.
  intros bad good.
  destruct (merge_skips_undecodable sample_decode sample_is_known fresh_state [] [good] bad
              eq_refl) as [Heq Hnot].
  split; [exact Heq|].
  refine (proj1 (Hnot _ _)).
  - vm_compute. set_solver.
  - intros m' Hm'. simpl in Hm'. apply elem_of_cons in Hm' as [->|Hm'];
      [discriminate | apply elem_of_nil in Hm'; contradiction].
Defined.

(* ------------------------------------------------------------------ *)
(** ** Dump / load round trip *)

Lemma filter_all {A} (P : A -> Prop) `{forall x, Decision (P x)} (l : list A) :
  Forall P l -> filter P l = l.
Proof.
  induction 1 as [|x l Hx Hl IH]; [reflexivity|].
  rewrite filter_cons_True by exact Hx. by rewrite IH.
Qed.

Lemma filter_none {A} (P : A -> Prop) `{forall x, Decision (P x)} (l : list A) :
  Forall (fun x => ~ P x) l -> filter P l = [].
Proof.
  induction 1 as [|x l Hx Hl IH]; [reflexivity|].
  rewrite filter_cons_False by exact Hx. exact IH.
Qed.

Lemma mapM_decode_encode (S : list (string * Entry)) :
  mapM (fun kv : string * Value => e ← decode_entry kv.2; Some (kv.1, e))
       (map (fun ke : string * Entry => (ke.1, encode_entry ke.2)) S) = Some S.
Proof.
  induction S as [|[k [v [t h]]] S IH]; simpl; [reflexivity|].
  rewrite IH. reflexivity.
Qed.

Lemma bucket_from_dump (is_known : string -> bool) (b : bool)
    (K U : gmap string Entry) (B : gmap string Entry) :
  map_Forall (fun k _ => is_known k = true) K ->
  map_Forall (fun k _ => is_known k = false) U ->
  B = (if b then K else U) ->
  list_to_map (filter (fun ke : string * Entry => is_known ke.1 = b)
                 (merge_sort key_le (map_to_list K ++ map_to_list U))) = B.
Proof.
  intros HK HU ->.
  apply map_Forall_to_list in HK, HU.
  transitivity (list_to_map (M := gmap string Entry)
                  (map_to_list (if b then K else U))); [|apply list_to_map_to_list].
  symmetry. apply list_to_map_proper; [apply NoDup_fst_map_to_list|].
  rewrite (merge_sort_Permutation key_le), filter_app.
  destruct b.
  - rewrite (filter_all _ (map_to_list K)), (filter_none _ (map_to_list U)), app_nil_r;
      [reflexivity| |].
    + eapply Forall_impl; [exact HU|]. intros [k e]; simpl; congruence.
    + eapply Forall_impl; [exact HK|]. intros [k e]; simpl; congruence.
  - rewrite (filter_none _ (map_to_list K)), (filter_all _ (map_to_list U)); [reflexivity| |].
    + eapply Forall_impl; [exact HU|]. intros [k e]; simpl; congruence.
    + eapply Forall_impl; [exact HK|]. intros [k e]; simpl; congruence.
Qed.

Lemma load_dump_document (is_known : string -> bool) (doc : ConfigDocument) :
  wf_document is_known doc -> load_document is_known (dump_document doc) = Some doc.
Proof.
  intros [HK HU]. destruct doc as [K U]. simpl in HK, HU.
  unfold load_document, dump_document. cbn [known_fields unknown_fields].
  rewrite mapM_decode_encode. simpl. f_equal. f_equal.
  - apply bucket_from_dump; auto.
  - apply bucket_from_dump; auto.
Qed.

Lemma load_document_wf (is_known : string -> bool) (v : Value) (d : ConfigDocument) :
  load_document is_known v = Some d -> wf_document is_known d.
Proof.
  unfold load_document. destruct v as [| |kvs|]; try discriminate.
  destruct (mapM _ kvs) as [entries|]; simpl; [|discriminate].
  intros Hd. inversion Hd; subst. split; intros k e Hk; simpl in Hk;
    apply elem_of_list_to_map_2 in Hk; apply list_elem_of_filter in Hk as [Hk _];
    exact Hk.
Qed.

Lemma fold_fragment_wf (is_known : string -> bool) (p : Prio) (doc : ConfigDocument)
    (frag : dict) :
  wf_document is_known doc -> wf_document is_known (fold_fragment is_known p doc frag).
Proof.
  destruct doc as [K U]. intros [HK HU]. split; intros k e Hk; simpl in *;
    rewrite lookup_merge_into, lookup_filter_bucket in Hk;
    destruct (is_known k) eqn:E; try reflexivity;
    rewrite decide_False in Hk by congruence.
  - rewrite <- E. exact (HK k e Hk).
  - rewrite <- E. exact (HU k e Hk).
Qed.

Section DumpCycle.

Variable decode : bytes -> option dict.
Variable is_known : string -> bool.

#[local] Abbreviation step := (merge_state decode is_known).

Lemma merge_state_wf (s : ConfigState) (m : ConfigMessage) :
  wf_document is_known (document s) -> wf_document is_known (document (step s m)).
Proof.
  unfold merge_state, merge_one. case_decide; [done|].
  destruct (decode (data m)); simpl; [apply fold_fragment_wf | done].
Qed.

Lemma config_merge_wf (s : ConfigState) (l : list ConfigMessage) :
  wf_document is_known (document s) ->
  wf_document is_known (document (config_merge decode is_known s l).1).
Proof.
  rewrite config_merge_fst. revert s.
  induction l as [|m l IH]; intros s Hs; cbn [foldl]; [exact Hs|].
  apply IH, merge_state_wf, Hs.
Qed.

Lemma merge_state_unknown_untouched (s : ConfigState) (m : ConfigMessage) (k : string) :
  (forall frag, decode (data m) = Some frag -> frag !! k = None) ->
  unknown_fields (document (step s m)) !! k = unknown_fields (document s) !! k.
Proof.
  intros Hm. unfold merge_state, merge_one. case_decide; [reflexivity|].
  destruct (decode (data m)) as [frag|] eqn:D; simpl; [|reflexivity].
  rewrite lookup_merge_into, lookup_filter_bucket, (Hm frag eq_refl).
  case_decide; reflexivity.
Qed.

Lemma config_merge_unknown_untouched (s : ConfigState) (l : list ConfigMessage) (k : string) :
  (forall m frag, m ∈ l -> decode (data m) = Some frag -> frag !! k = None) ->
  unknown_fields (document (config_merge decode is_known s l).1) !! k
  = unknown_fields (document s) !! k.
Proof.
  rewrite config_merge_fst. revert s.
  induction l as [|m l IH]; intros s Hl; cbn [foldl]; [reflexivity|].
  rewrite IH.
  - apply merge_state_unknown_untouched. intros frag D. apply (Hl m); [set_solver|done].
  - intros m' frag Hm' D. apply (Hl m'); [set_solver|done].
Qed.

End DumpCycle.

(* ------------------------------------------------------------------ *)
(** ** Claim on dump / load *)

(** C4: loading what [dump] produced gives back the dumped document, known
    and unknown fields alike (for the documents the engine builds: fresh,
    loaded or merged ones are all [wf_document]); an unknown field of a
    loaded dump is still there, unchanged, after merging a batch none of
    whose decodable messages carries that field name, dumping, and loading
    the result. *)
Theorem dump_load_roundtrip (decode : bytes -> option dict) (is_known : string -> bool) :
  wf_document is_known empty_document
  /\ (forall s0 v s1, config_load is_known s0 v = (true, s1) ->
        wf_document is_known (document s1))
  /\ (forall s l, wf_document is_known (document s) ->
        wf_document is_known (document (config_merge decode is_known s l).1))
  /\ (forall s s0, wf_document is_known (document s) ->
        config_load is_known s0 (config_dump s).1
        = (true, mkConfigState (document s) (applied_hashes s0) (needs_dump s0)))
  /\ (forall s0 v s1 l k e s0',
        config_load is_known s0 v = (true, s1) ->
        unknown_fields (document s1) !! k = Some e ->
        (forall m frag, m ∈ l -> decode (data m) = Some frag -> frag !! k = None) ->
        exists s3,
          config_load is_known s0'
            (config_dump (config_merge decode is_known s1 l).1).1 = (true, s3)
          /\ unknown_fields (document s3) !! k = Some e).
Proof.
  assert (Hload : forall s0 v s1, config_load is_known s0 v = (true, s1) ->
                    wf_document is_known (document s1)).
  { intros s0 v s1. unfold config_load.
    destruct (load_document is_known v) as [d|] eqn:Hd; [|discriminate].
    intros H. inversion H; subst. simpl. by eapply load_document_wf. }
  assert (Hrt : forall s s0, wf_document is_known (document s) ->
                  config_load is_known s0 (config_dump s).1
                  = (true, mkConfigState (document s) (applied_hashes s0) (needs_dump s0))).
  { intros s s0 Hwf. unfold config_load, config_dump. cbn [fst].
    rewrite load_dump_document by exact Hwf. reflexivity. }
  split_and!.
  - split; intros k e Hk; simpl in Hk; rewrite lookup_empty in Hk; discriminate.
  - exact Hload.
  - intros s l. apply config_merge_wf.
  - exact Hrt.
  - intros s0 v s1 l k e s0' H1 Hk Hl.
    pose proof (Hload _ _ _ H1) as Hwf1.
    eexists. split.
    + apply Hrt. by apply config_merge_wf.
    + simpl. rewrite config_merge_unknown_untouched by exact Hl. exact Hk.
Qed.

Lemma dump_load_roundtrip_witness :
  let v := VDict [("zz"%string, VList [VStr "x"; VInt 5; VStr "h0"])] in
  exists s3,
    config_load sample_is_known fresh_state
      (config_dump (config_merge sample_decode sample_is_known
                      (config_load sample_is_known fresh_state v).2
                      [mkConfigMessage 2 "h1" 100 [Byte.x61]]).1).1 = (true, s3)
    /\ unknown_fields (document s3) !! "zz"%string = Some (VStr "x", (5, "h0"%string)).
Proof.
  intros v.
  destruct (dump_load_roundtrip sample_decode sample_is_known) as (_ & _ & _ & _ & H).
  apply (H fresh_state v (config_load sample_is_known fresh_state v).2 _ "zz"%string
           (VStr "x", (5, "h0"%string)) fresh_state).
  - vm_compute. reflexivity.
  - vm_compute. reflexivity.
  - intros m frag Hm D. apply list_elem_of_singleton in Hm. subst m.
    simpl in D. inversion D. subst frag. apply lookup_singleton_ne. discriminate.
Defined.

(* ------------------------------------------------------------------ *)
(** ** Dirty flag *)

Lemma foldl_merge_one_needs_dump (decode : bytes -> option dict) (is_known : string -> bool)
    (l : list ConfigMessage) (s : ConfigState) (acc : list string) :
  let r := foldl (merge_one decode is_known) (s, acc) l in
  (needs_dump s = true -> needs_dump r.1 = true) /\ (r.2 <> acc -> needs_dump r.1 = true).
Proof.
  revert s acc. induction l as [|m l IH]; intros s acc r; subst r; cbn [foldl].
  - split; [done|]. intros H. contradiction.
  - destruct (decide (hash m ∈ applied_hashes s)) as [Hm|Hm].
    { assert (E0 : merge_one decode is_known (s, acc) m = (s, acc))
        by (unfold merge_one; by rewrite decide_True).
      rewrite E0. apply IH. }
    destruct (decode (data m)) as [frag|] eqn:D.
    + assert (E0 : merge_one decode is_known (s, acc) m
                   = (mkConfigState (fold_fragment is_known (msg_prio m) (document s) frag)
                                    ({[hash m]} ∪ applied_hashes s) true, acc ++ [hash m]))
        by (unfold merge_one; rewrite decide_False by done; rewrite D; reflexivity).
      rewrite E0.
      destruct (IH (mkConfigState (fold_fragment is_known (msg_prio m) (document s) frag)
                                  ({[hash m]} ∪ applied_hashes s) true) (acc ++ [hash m]))
        as [H1 _].
      split; intros _; apply H1; reflexivity.
    + assert (E0 : merge_one decode is_known (s, acc) m = (s, acc))
        by (unfold merge_one; rewrite decide_False by done; rewrite D; reflexivity).
      rewrite E0. apply IH.
Qed.

(** C5: a dump clears [needs_dump] and keeps [applied_hashes] (and the
    document); [state_dump] includes every state when [full] and every
    dirty state otherwise, and afterwards no state needs a dump;
    [state_dump_namespace] clears the dumped state; no dump changes any
    state's [applied_hashes]; a merge that accepts at least one hash sets
    [needs_dump]. *)
Theorem needs_dump_contract :
  (forall s : ConfigState,
     needs_dump (config_dump s).2 = false
     /\ applied_hashes (config_dump s).2 = applied_hashes s
     /\ document (config_dump s).2 = document s)
  /\ (forall (full : bool) (st : StateStore) k s,
        st !! k = Some s -> (full || needs_dump s) = true ->
        is_Some ((store_dump full st).1 !! k))
  /\ (forall (full : bool) (st : StateStore) k s',
        (store_dump full st).2 !! k = Some s' -> needs_dump s' = false)
  /\ (forall (full : bool) (st : StateStore) k,
        applied_hashes <$> (store_dump full st).2 !! k = applied_hashes <$> st !! k)
  /\ (forall ns account (st : StateStore) s,
        st !! (ns, account) = Some s ->
        is_Some (store_dump_namespace ns account st).1
        /\ exists s', (store_dump_namespace ns account st).2 !! (ns, account) = Some s'
                      /\ needs_dump s' = false /\ applied_hashes s' = applied_hashes s)
  /\ (forall ns account (st : StateStore) k,
        applied_hashes <$> (store_dump_namespace ns account st).2 !! k
        = applied_hashes <$> st !! k)
  /\ (forall (decode : bytes -> option dict) (is_known : string -> bool) s l,
        (config_merge decode is_known s l).2 <> [] ->
        needs_dump (config_merge decode is_known s l).1 = true).
Proof.
  split_and!.
  - intros s. split_and!; reflexivity.
  - intros full st k s Hk Hinc. unfold store_dump. cbn [fst].
    rewrite lookup_fmap, map_lookup_filter, Hk. simpl.
    rewrite option_guard_True by exact Hinc. eexists; reflexivity.
  - intros full st k s'. unfold store_dump. cbn [snd]. rewrite lookup_fmap.
    destruct (st !! k) as [s|]; simpl; [|discriminate].
    intros H. inversion H. destruct (full || needs_dump s) eqn:E; [reflexivity|].
    apply orb_false_iff in E. apply E.
  - intros full st k. unfold store_dump. cbn [snd]. rewrite lookup_fmap.
    destruct (st !! k) as [s|]; simpl; [|reflexivity].
    destruct (full || needs_dump s); reflexivity.
  - intros ns account st s Hs. unfold store_dump_namespace. rewrite Hs. simpl.
    split; [eexists; reflexivity|].
    eexists. rewrite lookup_insert_eq. split_and!; reflexivity.
  - intros ns account st k. unfold store_dump_namespace.
    destruct (st !! (ns, account)) as [s|] eqn:Hs; [|reflexivity]. simpl.
    destruct (decide (k = (ns, account))) as [->|Hne].
    + rewrite lookup_insert_eq, Hs. reflexivity.
    + rewrite lookup_insert_ne by congruence. reflexivity.
  - intros decode is_known s l Hne. unfold config_merge.
    apply (foldl_merge_one_needs_dump decode is_known l s []). exact Hne.
Qed.

Lemma needs_dump_contract_witness :
  let m := mkConfigMessage 2 "h1" 100 [Byte.x61] in
  let st : StateStore :=
    {[ (2, "05aa"%string) := (config_merge sample_decode sample_is_known fresh_state [m]).1 ]} in
  (config_merge sample_decode sample_is_known fresh_state [m]).2 <> []
  /\ needs_dump (config_merge sample_decode sample_is_known fresh_state [m]).1 = true
  /\ is_Some ((store_dump false st).1 !! (2, "05aa"%string))
  /\ (forall s', (store_dump false st).2 !! (2, "05aa"%string) = Some s' -> needs_dump s' = false).
Proof.
  intros m st.
  destruct needs_dump_contract as (_ & Hinc & Hclr & _ & _ & _ & Hmerge).
  assert (Hacc : (config_merge sample_decode sample_is_known fresh_state [m]).2 <> [])
    by (vm_compute; discriminate).
  assert (Hnd := Hmerge sample_decode sample_is_known fresh_state [m] Hacc).
  split_and!; [exact Hacc | exact Hnd | |].
  - apply (Hinc false st _ (config_merge sample_decode sample_is_known fresh_state [m]).1).
    + apply lookup_singleton_eq.
    + rewrite Hnd. reflexivity.
  - intros s'. apply Hclr.
Defined.

(* ------------------------------------------------------------------ *)
(** ** Tri-state flag *)

(** C6: the blinded-message-requests flag reads -1 on a fresh (empty)
    profile; after setting any positive value it reads 1, after setting 0
    it reads 0, and after clearing with -1 it reads -1, whatever the
    profile held before. *)
Theorem blinded_msgreqs_tristate :
  get_profile_blinded_msgreqs ∅ = -1
  /\ (forall (d : dict) (v : Z), 0 < v ->
        get_profile_blinded_msgreqs (set_profile_blinded_msgreqs v d) = 1)
  /\ (forall d : dict, get_profile_blinded_msgreqs (set_profile_blinded_msgreqs 0 d) = 0)
  /\ (forall d : dict, get_profile_blinded_msgreqs (set_profile_blinded_msgreqs (-1) d) = -1).
Proof.
  split_and!.
  - reflexivity.
  - intros d v Hv. unfold set_profile_blinded_msgreqs, get_profile_blinded_msgreqs.
    replace (v <? 0) with false by (symmetry; apply Z.ltb_ge; lia).
    replace (0 <? v) with true by (symmetry; apply Z.ltb_lt; lia).
    rewrite lookup_insert_eq. reflexivity.
  - intros d. unfold set_profile_blinded_msgreqs, get_profile_blinded_msgreqs. simpl.
    rewrite lookup_insert_eq. reflexivity.
  - intros d. unfold set_profile_blinded_msgreqs, get_profile_blinded_msgreqs. simpl.
    rewrite lookup_delete_eq. reflexivity.
Qed.

(* ------------------------------------------------------------------ *)
(** ** Bounded decompression *)

(** C7: with a non-zero [max_size], [zstd_decompress] returns [None] (a
    value, not an exception) whenever the decoded output is longer than
    [max_size]; with [max_size = 0] it returns whatever the frame decodes
    to; any output it does return respects the bound; and a load whose
    compressed payload fails to decompress returns [false] and leaves the
    state, hence its document, unchanged. *)
Theorem zstd_decompress_bounded (zstd_frame_decode : bytes -> option bytes)
    (bt_decode : bytes -> option Value) (marker : bytes) (is_known : string -> bool) :
  (forall d max_size out,
     zstd_frame_decode d = Some out -> 0 < max_size -> max_size < len out ->
     zstd_decompress zstd_frame_decode d max_size = None)
  /\ (forall d, zstd_decompress zstd_frame_decode d 0 = zstd_frame_decode d)
  /\ (forall d max_size out,
        0 <= max_size -> zstd_decompress zstd_frame_decode d max_size = Some out ->
        max_size = 0 \/ len out <= max_size)
  /\ (forall max_size s raw,
        marker `prefix_of` raw ->
        zstd_decompress zstd_frame_decode (drop (length marker) raw) max_size = None ->
        config_load_bytes zstd_frame_decode bt_decode marker is_known max_size s raw = (false, s)).
Proof.
  split_and!.
  - intros d max_size out D Hpos Hlt. unfold zstd_decompress. rewrite D.
    replace (0 <? max_size) with true by (symmetry; apply Z.ltb_lt; lia).
    replace (max_size <? len out) with true by (symmetry; apply Z.ltb_lt; lia).
    reflexivity.
  - intros d. unfold zstd_decompress. destruct (zstd_frame_decode d); reflexivity.
  - intros d max_size out Hnn. unfold zstd_decompress.
    destruct (zstd_frame_decode d) as [o|]; [|discriminate].
    destruct ((0 <? max_size) && (max_size <? len o)) eqn:E; [discriminate|].
    intros H. inversion H; subst o.
    apply andb_false_iff in E. destruct E as [E|E].
    + left. apply Z.ltb_ge in E. lia.
    + right. apply Z.ltb_ge in E. lia.
  - intros max_size s raw Hpre Hfail. unfold config_load_bytes.
    rewrite decide_True by exact Hpre. rewrite Hfail. reflexivity.
Qed.

Lemma zstd_decompress_bounded_witness :
  let big := repeat Byte.x00 (Z.to_nat 10485760) in
  let zfd := fun _ : bytes => Some big in
  let marker := [Byte.x28; Byte.xb5; Byte.x2f; Byte.xfd] in
  zstd_decompress zfd [Byte.x01] 1048576 = None
  /\ config_load_bytes zfd (fun _ => None) marker sample_is_known 1048576 fresh_state
       (marker ++ [Byte.x01]) = (false, fresh_state).
Proof.
  intros big zfd marker.
  destruct (zstd_decompress_bounded zfd (fun _ => None) marker sample_is_known)
    as (Hbound & _ & _ & Hload).
  assert (Hlen : len big = 10485760)
    by (unfold len, big; rewrite List.repeat_length, Z2Nat.id by lia; reflexivity).
  assert (Hnone : zstd_decompress zfd [Byte.x01] 1048576 = None).
  { apply (Hbound [Byte.x01] 1048576 big); [reflexivity | lia | rewrite Hlen; lia]. }
  split; [exact Hnone|].
  apply Hload.
  - exists [Byte.x01]. reflexivity.
  - exact Hnone.
Defined.
(* ------------------------------------------------------------------ *)
(** ** Character buffers: copying C strings *)

Lemma apply_writes_app (buf : bytes) (w1 w2 : list (Z * Byte.byte)) :
  apply_writes buf (w1 ++ w2) = apply_writes (apply_writes buf w1) w2.
Proof. unfold apply_writes. apply foldl_app. Qed.

Lemma apply_memcpy_writes (buf : bytes) (i : nat) (s : bytes) :
  (i + length s <= length buf)%nat ->
  apply_writes buf (memcpy_writes (Z.of_nat i) s) = take i buf ++ s ++ drop (i + length s) buf.
Proof.
  revert i buf. induction s as [|b s IH]; intros i buf Hle; simpl.
  - rewrite Nat.add_0_r. symmetry. apply take_drop.
  - simpl in Hle.
    change (apply_writes buf ((Z.of_nat i, b) :: memcpy_writes (Z.of_nat i + 1) s))
      with (apply_writes (store buf (Z.of_nat i, b)) (memcpy_writes (Z.of_nat i + 1) s)).
    unfold store; cbn [fst snd]. rewrite Nat2Z.id.
    replace (Z.of_nat i + 1) with (Z.of_nat (S i)) by lia.
    rewrite IH by (rewrite length_insert; lia).
    rewrite insert_take_drop by lia.
    assert (Ht : length (take i buf) = i) by (rewrite length_take; lia).
    replace (S i) with (i + 1)%nat by lia.
    rewrite (take_app_add' (take i buf) _ i 1 (eq_sym Ht)).
    replace (i + 1 + length s)%nat with (i + (1 + length s))%nat by lia.
    rewrite (drop_app_add' (take i buf) _ i _ (eq_sym Ht)).
    simpl. rewrite drop_drop. rewrite <- app_assoc. simpl. do 4 f_equal. lia.
Qed.

Lemma c_str_of_app_nul (s r : bytes) : c_str_of (s ++ Byte.x00 :: r) = c_str_of s.
Proof.
  induction s as [|b s IH]; simpl; [reflexivity|].
  destruct (Byte.eqb b Byte.x00); [reflexivity|]. rewrite IH. reflexivity.
Qed.

Lemma c_str_of_nul_free (s : bytes) : Forall (fun b => b <> Byte.x00) s -> c_str_of s = s.
Proof.
  induction 1 as [|b s Hb _ IH]; simpl; [reflexivity|].
  destruct (Byte.eqb b Byte.x00) eqn:E.
  - apply Byte.byte_dec_bl in E. contradiction.
  - rewrite IH. reflexivity.
Qed.

Lemma c_str_of_nul_free' (s : bytes) : Forall (fun b => b <> Byte.x00) (c_str_of s).
Proof.
  induction s as [|b s IH]; simpl; [constructor|].
  destruct (Byte.eqb b Byte.x00) eqn:E; [constructor|].
  constructor; [|exact IH]. intros ->. discriminate.
Qed.

(** X1: [copy_c_str] into [char dest[N]] with a source shorter than [N]
    writes only inside [dest]: the source bytes at [dest[0..size-1]], a NUL
    at [dest[size]], and nothing after it; read back as a C string, [dest]
    equals the source read as a C string. *)
Theorem copy_c_str_short_copies (N : Z) (src buf : bytes) :
  len src < N -> length buf = Z.to_nat N ->
  exists w, copy_c_str N src = Some w
    /\ writes_in_bounds N w
    /\ apply_writes buf w = src ++ Byte.x00 :: drop (S (length src)) buf
    /\ c_str_of (apply_writes buf w) = c_str_of src.
Proof.
  intros Hlt Hbuf.
  assert (Hlen : (length src < length buf)%nat) by (rewrite Hbuf; unfold len in Hlt; lia).
  assert (Happ : apply_writes buf (memcpy_writes 0 src ++ [(len src, Byte.x00)])
                 = src ++ Byte.x00 :: drop (S (length src)) buf).
  { rewrite apply_writes_app.
    pose proof (apply_memcpy_writes buf 0 src ltac:(lia)) as M.
    change (Z.of_nat 0) with 0 in M. rewrite M. simpl.
    unfold store; cbn [fst snd]. unfold len. rewrite Nat2Z.id.
    rewrite insert_app_r_alt by lia. rewrite Nat.sub_diag.
    destruct (drop (length src) buf) as [|x r] eqn:Ed.
    - apply (f_equal length) in Ed. rewrite length_drop in Ed. simpl in Ed. lia.
    - simpl. do 2 f_equal.
      replace (S (length src)) with (length src + 1)%nat by lia.
      rewrite <- drop_drop, Ed. reflexivity. }
  exists (memcpy_writes 0 src ++ [(len src, Byte.x00)]). split_and!.
  - unfold copy_c_str. replace (N <=? len src) with false by (symmetry; apply Z.leb_gt; lia).
    reflexivity.
  - unfold writes_in_bounds. apply Forall_app. split.
    + eapply Forall_impl; [apply memcpy_writes_indices|]. intros [j x]; simpl.
      unfold len in *; lia.
    + constructor; [|constructor]. simpl. unfold len in *; lia.
  - exact Happ.
  - rewrite Happ. apply c_str_of_app_nul.
Qed.

(** X2: for every [N] and every source longer than [N], [copy_c_str]
    keeps [N + 1] bytes instead of [N - 1]: it stores [src[0..N]] and the
    terminator at index [N + 1], two bytes past the end of [dest]. *)
Theorem copy_c_str_long_overruns (N : Z) (src : bytes) :
  0 <= N -> N < len src -> len src < SIZE_MAX_1 ->
  copy_c_str N src
    = Some (memcpy_writes 0 (take (Z.to_nat (N + 1)) src) ++ [(N + 1, Byte.x00)])
  /\ forall w, copy_c_str N src = Some w -> ~ writes_in_bounds N w.
Proof.
  intros HN Hlt Hmax.
  assert (E : copy_c_str N src
              = Some (memcpy_writes 0 (take (Z.to_nat (N + 1)) src) ++ [(N + 1, Byte.x00)])).
  { unfold copy_c_str. replace (N <=? len src) with true by (symmetry; apply Z.leb_le; lia).
    unfold size_sub. rewrite (Z.mod_small (len src - N)) by lia.
    rewrite (Z.mod_small (len src - N - 1)) by lia.
    unfold remove_suffix. replace (len src - N - 1 <=? len src) with true
      by (symmetry; apply Z.leb_le; lia).
    replace (len src - (len src - N - 1)) with (N + 1) by lia.
    do 4 f_equal. unfold len in *. rewrite length_take. lia. }
  split; [exact E|].
  intros w Hw Hin. rewrite E in Hw. injection Hw as <-.
  unfold writes_in_bounds in Hin. apply Forall_app in Hin as [_ Hin].
  inversion Hin as [|? ? Hb _]. simpl in Hb. lia.
Qed.

(** X3: with a source of exactly [N] bytes, [src.size() - N - 1] wraps to
    [SIZE_MAX] and [remove_suffix] is called outside its precondition. *)
Theorem copy_c_str_exact_size_undefined (N : Z) (src : bytes) :
  len src = N -> N < SIZE_MAX_1 - 1 -> copy_c_str N src = None.
Proof.
  intros Heq Hmax. unfold copy_c_str.
  replace (N <=? len src) with true by (symmetry; apply Z.leb_le; lia).
  unfold size_sub, remove_suffix. rewrite Heq, Z.sub_diag, Zmod_0_l.
  replace ((0 - 1) mod SIZE_MAX_1) with (SIZE_MAX_1 - 1) by reflexivity.
  replace (SIZE_MAX_1 - 1 <=? N) with false by (symmetry; apply Z.leb_gt; lia).
  reflexivity.
Qed.

(* ------------------------------------------------------------------ *)
(** ** The C wrapper constructors *)

Lemma init_error_writes_apply (what buf : bytes) :
  (256 <= length buf)%nat ->
  apply_writes buf (init_error_writes what)
  = take 255 what ++ Byte.x00 :: drop (S (length (take 255 what))) buf.
Proof.
  intros Hbuf. unfold init_error_writes.
  assert (Hmsg : (if 255 <? len what then take 255 what else what) = take 255 what).
  { destruct (255 <? len what) eqn:E; [reflexivity|].
    apply Z.ltb_ge in E. unfold len in E. symmetry. apply take_ge. lia. }
  rewrite Hmsg.
  assert (Hl : (length (take 255 what) <= 255)%nat) by (rewrite length_take; lia).
  pose proof (apply_memcpy_writes buf 0 (take 255 what ++ [Byte.x00])
                ltac:(rewrite length_app; simpl; lia)) as M.
  change (Z.of_nat 0) with 0 in M. rewrite M. simpl.
  rewrite <- app_assoc. simpl. rewrite length_app. simpl.
  do 3 f_equal. lia.
Qed.

(** X4: [c_wrapper_init_generic] returns [SESSION_ERR_NONE] exactly when
    the constructor returns, and then sets [*conf] to a new handle holding
    the object with a null [last_error], leaving [error] alone.  When the
    constructor throws, it returns [SESSION_ERR_INVALID_DUMP], leaves
    [*conf] unchanged and, given a buffer of at least 256 bytes, stores the
    first 255 bytes (at most) of the message and a NUL, touching nothing
    after the NUL; a null [error] receives nothing. *)
Theorem c_wrapper_init_generic_outcome {A C : Type} (ctor : A -> bytes + C) (args : A)
    (conf : option (config_object C)) (error : option bytes) :
  (match error with Some buf => (256 <= length buf)%nat | None => True end) ->
  (forall c, ctor args = inr c ->
     c_wrapper_init_generic ctor args conf error
     = (SESSION_ERR_NONE, Some (mk_config_object c None), error))
  /\ (forall what, ctor args = inl what ->
        let msg := take 255 (c_str_of what) in
        c_wrapper_init_generic ctor args conf error
        = (SESSION_ERR_INVALID_DUMP, conf,
           (fun buf => msg ++ Byte.x00 :: drop (S (length msg)) buf) <$> error)
        /\ (length msg <= 255)%nat
        /\ forall buf', (c_wrapper_init_generic ctor args conf error).2 = Some buf' ->
                        c_str_of buf' = msg).
Proof.
  intros Herr. split.
  - intros c Hc. unfold c_wrapper_init_generic. rewrite Hc. reflexivity.
  - intros what Hw msg.
    assert (E : c_wrapper_init_generic ctor args conf error
                = (SESSION_ERR_INVALID_DUMP, conf,
                   (fun buf => msg ++ Byte.x00 :: drop (S (length msg)) buf) <$> error)).
    { unfold c_wrapper_init_generic. rewrite Hw.
      destruct error as [buf|]; [|reflexivity]. simpl.
      rewrite init_error_writes_apply by exact Herr. reflexivity. }
    split_and!; [exact E | subst msg; rewrite length_take; lia |].
    intros buf' Hb. rewrite E in Hb. destruct error as [buf|]; [|discriminate].
    simpl in Hb. injection Hb as <-. rewrite c_str_of_app_nul.
    apply c_str_of_nul_free. subst msg. apply Forall_take. apply c_str_of_nul_free'.
Qed.

(** X5: [c_wrapper_init] stops at the [assert] on a null secret key; a
    dump with [dumplen = 0] is passed on exactly as a null dump; and a
    64-byte libsodium secret key gives the same result as its 32-byte seed,
    since only the first 32 bytes are read. *)
Theorem c_wrapper_init_arguments {C : Type} (ctor : bytes * option bytes -> bytes + C)
    (conf : option (config_object C)) (sk d : bytes) (n : Z) (error : option bytes) :
  c_wrapper_init ctor conf None (Some d) n error = None
  /\ c_wrapper_init ctor conf (Some sk) (Some d) 0 error
     = c_wrapper_init ctor conf (Some sk) None n error
  /\ (forall rest, length sk = 32%nat ->
        c_wrapper_init ctor conf (Some (sk ++ rest)) (Some d) n error
        = c_wrapper_init ctor conf (Some sk) (Some d) n error).
Proof.
  split_and!; [reflexivity | reflexivity |].
  intros rest Hsk. unfold c_wrapper_init.
  rewrite take_app_length' by (symmetry; exact Hsk).
  rewrite (take_ge sk) by lia. reflexivity.
Qed.

(** X6: [c_group_wrapper_init] stops at the [assert] on a null public
    key; a zero [dumplen] is the same as a null dump; a null secret key is
    passed as an empty optional; and only the first 32 bytes of the public
    key and of the secret key are read. *)
Theorem c_group_wrapper_init_arguments {C : Type}
    (ctor : bytes * option bytes * option bytes -> bytes + C)
    (conf : option (config_object C)) (pk : bytes) (sk : option bytes) (d : bytes)
    (n : Z) (error : option bytes) :
  c_group_wrapper_init ctor conf None sk (Some d) n error = None
  /\ c_group_wrapper_init ctor conf (Some pk) sk (Some d) 0 error
     = c_group_wrapper_init ctor conf (Some pk) sk None n error
  /\ c_group_wrapper_init ctor conf (Some pk) None (Some d) n error
     = Some (c_wrapper_init_generic ctor
               (take 32 pk, None,
                if negb (n =? 0) then Some (take (Z.to_nat n) d) else None) conf error)
  /\ (forall rest, length pk = 32%nat ->
        c_group_wrapper_init ctor conf (Some (pk ++ rest)) sk (Some d) n error
        = c_group_wrapper_init ctor conf (Some pk) sk (Some d) n error)
  /\ (forall seed rest, length seed = 32%nat ->
        c_group_wrapper_init ctor conf (Some pk) (Some (seed ++ rest)) (Some d) n error
        = c_group_wrapper_init ctor conf (Some pk) (Some seed) (Some d) n error).
Proof.
  split_and!; [reflexivity | reflexivity | reflexivity | |].
  - intros rest Hpk. unfold c_group_wrapper_init.
    rewrite take_app_length' by (symmetry; exact Hpk).
    rewrite (take_ge pk) by lia. reflexivity.
  - intros seed rest Hs. unfold c_group_wrapper_init.
    rewrite take_app_length' by (symmetry; exact Hs).
    rewrite (take_ge seed) by lia. reflexivity.
Qed.

(** X7: [set_pair_if] leaves every other key of the dict as it was, and
    applying it twice with the same arguments is the same as once. *)
Theorem set_pair_if_frame_idem (condition : bool) (f1 f2 : string) (v1 v2 : Value) (d : dict) :
  (forall k, k <> f1 -> k <> f2 -> set_pair_if condition f1 v1 f2 v2 d !! k = d !! k)
  /\ set_pair_if condition f1 v1 f2 v2 (set_pair_if condition f1 v1 f2 v2 d)
     = set_pair_if condition f1 v1 f2 v2 d.
Proof.
  unfold set_pair_if, proxy_assign, proxy_erase. split.
  - intros k H1 H2. destruct condition.
    + rewrite !lookup_insert_ne by congruence. reflexivity.
    + rewrite !lookup_delete_ne by congruence. reflexivity.
  - apply map_eq. intros k. destruct condition.
    + destruct (decide (k = f2)) as [->|H2]; [rewrite !lookup_insert_eq; reflexivity|].
      rewrite !(lookup_insert_ne _ f2) by congruence.
      destruct (decide (k = f1)) as [->|H1]; [rewrite !lookup_insert_eq; reflexivity|].
      rewrite !lookup_insert_ne by congruence. reflexivity.
    + destruct (decide (k = f2)) as [->|H2]; [rewrite !lookup_delete_eq; reflexivity|].
      rewrite !(lookup_delete_ne _ f2) by congruence.
      destruct (decide (k = f1)) as [->|H1]; [rewrite !lookup_delete_eq; reflexivity|].
      rewrite !lookup_delete_ne by congruence. reflexivity.
Qed.

(** X8: when both proxies name the same key, [set_pair_if] leaves that key
    holding the second value (condition true) or absent (condition false). *)
Theorem set_pair_if_same_field (condition : bool) (f : string) (v1 v2 : Value) (d : dict) :
  set_pair_if condition f v1 f v2 d !! f = if condition then Some v2 else None.
Proof.
  unfold set_pair_if, proxy_assign, proxy_erase. destruct condition.
  - apply lookup_insert_eq.
  - apply lookup_delete_eq.
Qed.

Lemma copy_c_str_short_copies_witness :
  exists w, copy_c_str 8 [Byte.x61; Byte.x62] = Some w
    /\ writes_in_bounds 8 w
    /\ apply_writes (repeat Byte.x7f 8) w
       = [Byte.x61; Byte.x62] ++ Byte.x00 :: drop 3 (repeat Byte.x7f 8)
    /\ c_str_of (apply_writes (repeat Byte.x7f 8) w) = c_str_of [Byte.x61; Byte.x62].
Proof.
  apply (copy_c_str_short_copies 8 [Byte.x61; Byte.x62] (repeat Byte.x7f 8)).
  - vm_compute. reflexivity.
  - reflexivity.
Defined.

Lemma copy_c_str_long_overruns_witness :
  copy_c_str 4 (repeat Byte.x61 10)
    = Some (memcpy_writes 0 (take 5 (repeat Byte.x61 10)) ++ [(5, Byte.x00)])
  /\ forall w, copy_c_str 4 (repeat Byte.x61 10) = Some w -> ~ writes_in_bounds 4 w.
Proof.
  apply (copy_c_str_long_overruns 4 (repeat Byte.x61 10)).
  - lia.
  - vm_compute. reflexivity.
  - vm_compute. reflexivity.
Defined.

Lemma copy_c_str_exact_size_undefined_witness :
  copy_c_str 3 [Byte.x61; Byte.x62; Byte.x63] = None.
Proof.
  apply (copy_c_str_exact_size_undefined 3 [Byte.x61; Byte.x62; Byte.x63]).
  - reflexivity.
  - vm_compute. reflexivity.
Defined.

Lemma c_wrapper_init_generic_outcome_witness :
  let ctor := fun _ : unit => @inl bytes nat (repeat Byte.x61 300) in
  (c_wrapper_init_generic ctor tt None (Some (repeat Byte.x00 256))).1.1
    = SESSION_ERR_INVALID_DUMP
  /\ forall buf', (c_wrapper_init_generic ctor tt None (Some (repeat Byte.x00 256))).2
                  = Some buf' -> c_str_of buf' = repeat Byte.x61 255.
Proof.
  intros ctor.
  destruct (c_wrapper_init_generic_outcome ctor tt None (Some (repeat Byte.x00 256))
              ltac:(simpl; lia)) as [_ H].
  destruct (H (repeat Byte.x61 300) eq_refl) as (E & _ & Hc).
  split; [rewrite E; reflexivity|].
  intros buf' Hb. rewrite (Hc buf' Hb). vm_compute. reflexivity.
Defined.

Lemma c_wrapper_init_arguments_witness :
  let ctor := fun a : bytes * option bytes => @inr bytes nat (length a.1) in
  c_wrapper_init ctor None (Some (repeat Byte.x01 32 ++ repeat Byte.x02 32)) (Some [Byte.x61]) 1 None
  = c_wrapper_init ctor None (Some (repeat Byte.x01 32)) (Some [Byte.x61]) 1 None.
Proof.
  intros ctor.
  destruct (c_wrapper_init_arguments ctor None (repeat Byte.x01 32) [Byte.x61] 1 None)
    as (_ & _ & H).
  apply H. reflexivity.
Defined.

Lemma c_group_wrapper_init_arguments_witness :
  let ctor := fun a : bytes * option bytes * option bytes => @inr bytes nat (length a.1.1) in
  c_group_wrapper_init ctor None (Some (repeat Byte.x01 32 ++ repeat Byte.x02 32)) None
    (Some [Byte.x61]) 1 None
  = c_group_wrapper_init ctor None (Some (repeat Byte.x01 32)) None (Some [Byte.x61]) 1 None
  /\ c_group_wrapper_init ctor None (Some (repeat Byte.x01 32))
       (Some (repeat Byte.x03 32 ++ repeat Byte.x04 32)) (Some [Byte.x61]) 1 None
     = c_group_wrapper_init ctor None (Some (repeat Byte.x01 32))
         (Some (repeat Byte.x03 32)) (Some [Byte.x61]) 1 None.
Proof.
  intros ctor. split.
  - destruct (c_group_wrapper_init_arguments ctor None (repeat Byte.x01 32) None [Byte.x61] 1 None)
      as (_ & _ & _ & H & _).
    apply H. reflexivity.
  - destruct (c_group_wrapper_init_arguments ctor None (repeat Byte.x01 32)
                (Some (repeat Byte.x03 32)) [Byte.x61] 1 None)
      as (_ & _ & _ & _ & H).
    apply H. reflexivity.
Defined.

Lemma set_pair_if_frame_idem_witness :
  let d : dict := <["x" := VInt 7]> (<["a" := VStr "old"]> ∅) in
  set_pair_if false "a" (VStr "1") "b" (VInt 2) d !! "x"%string = Some (VInt 7).
Proof.
  intros d.
  destruct (set_pair_if_frame_idem false "a" "b" (VStr "1") (VInt 2) d) as [H _].
  rewrite H by discriminate. reflexivity.
Defined.
